(** * Plugin loader, hook manager and command-not-found handler

    A shallow embedding of the hook system (HookContext, HookManager, the
    suggestion helpers and the command_not_found hook) and of the user
    configuration phase of the plugin loader, with the properties the
    specification states about them. *)

From Stdlib Require Import ZArith Ascii String List Sorting.Sorted Sorting.Permutation.
From stdpp Require Import base tactics option list strings pretty gmap.

Local Open Scope string_scope.
Local Open Scope Z_scope.

(** ** JavaScript primitives used by the sources

    Strings are sequences of code units; the operations below only compare
    code units for equality, so [string] stands for them. *)

Module Js.

(** [s.startsWith(p)] *)
Fixpoint startsWith (s p : string) {struct p} : bool :=
  match p, s with
  | EmptyString, _ => true
  | String _ _, EmptyString => false
  | String b p', String a s' => if Ascii.eqb a b then startsWith s' p' else false
  end.

(** [s.includes(part)] *)
Fixpoint includes (s part : string) : bool :=
  startsWith s part ||
  match s with
  | EmptyString => false
  | String _ s' => includes s' part
  end.

(** [s.split(c)] for a one-character separator: never empty, and the
    empty string is split into one empty segment. *)
Fixpoint split (c : ascii) (s : string) : list string :=
  match s with
  | EmptyString => [EmptyString]
  | String a s' =>
      if Ascii.eqb a c then EmptyString :: split c s'
      else match split c s' with
           | [] => [String a EmptyString]
           | seg :: segs => String a seg :: segs
           end
  end.

(** [l.join(sep)] *)
Fixpoint join (sep : string) (l : list string) : string :=
  match l with
  | [] => EmptyString
  | [x] => x
  | x :: l' => x +:+ sep +:+ join sep l'
  end.

(** Relative index of [Array.prototype.slice]: a negative index counts
    from the end, and the result is clamped to the array. *)
Definition rel_index (len k : Z) : Z :=
  if k <? 0 then Z.max (len + k) 0 else Z.min k len.

(** [l.slice(start, end)]; [end_ = None] is the one-argument form. *)
Definition slice {A} (start : Z) (end_ : option Z) (l : list A) : list A :=
  let len := Z.of_nat (length l) in
  let s := rel_index len start in
  let e := match end_ with None => len | Some e => rel_index len e end in
  take (Z.to_nat (e - s)) (drop (Z.to_nat s) l).

(** [Array.prototype.sort(cmp)]. The language requires the sort to be
    stable, and for a comparator that orders by a key the stable result
    is unique; it is computed here by stable insertion: an element goes
    before the first one it does not compare greater than. *)
Section Sort.
Context {A : Type} (cmp : A → A → Z).

Fixpoint sort_insert (x : A) (l : list A) : list A :=
  match l with
  | [] => [x]
  | y :: l' => if cmp x y <=? 0 then x :: l else y :: sort_insert x l'
  end.

Definition sort (l : list A) : list A := foldr sort_insert [] l.
End Sort.

(** [x || d] on an optional number: [undefined] and [0] are falsy. *)
Definition num_or (x : option Z) (d : Z) : Z :=
  match x with
  | Some v => if v =? 0 then d else v
  | None => d
  end.

End Js.

Definition colon : ascii := ":"%char.

(** ** Values, errors and the shared hook context *)

Record Error := mkError { message : string }.

(** The JavaScript values that flow through the hook system. Objects that
    are only passed along by reference (the CLI configuration, the options
    record of a hook call, the shared context itself) are [VObject]. *)
Inductive Value :=
| VUndefined
| VBool (b : bool)
| VNum (n : Z)
| VStr (s : string)
| VStrs (l : list string)
| VError (e : Error)
| VObject (tag : string).

(** [String(v)] *)
Definition js_String (v : Value) : string :=
  match v with
  | VUndefined => "undefined"
  | VBool true => "true"
  | VBool false => "false"
  | VNum n => pretty n
  | VStr s => s
  | VStrs l => Js.join "," l
  | VError e => "Error: " +:+ message e
  | VObject _ => "[object Object]"
  end.

(** [error instanceof Error ? error : new Error(String(error))] *)
Definition as_error (v : Value) : Error :=
  match v with
  | VError e => e
  | _ => mkError (js_String v)
  end.

(** [HookContext]: the [data] record and its methods. [data] is a plain
    object: the map holds its own properties, and what it does not hold
    is read through its prototype, [Object.prototype] at first.
    Assigning to [__proto__] creates no own property: a primitive is
    ignored and an object becomes the prototype, which the map records in
    the slot [__proto__]. Of an object installed in this way the model
    knows nothing but that it inherits from [Object.prototype] in turn. *)
Module HookContext.
Abbreviation t := (gmap string Value).

(** The property names of [Object.prototype]. *)
Definition object_prototype_names : list string :=
  ["constructor"; "__defineGetter__"; "__defineSetter__"; "hasOwnProperty";
   "__lookupGetter__"; "__lookupSetter__"; "isPrototypeOf"; "propertyIsEnumerable";
   "toString"; "valueOf"; "__proto__"; "toLocaleString"].
Definition inherits (key : string) : bool :=
  existsb (String.eqb key) object_prototype_names.

(** Arrays, errors and the objects passed by reference are objects. *)
Definition is_object (v : Value) : bool :=
  match v with
  | VStrs _ | VError _ | VObject _ => true
  | _ => false
  end.

(** [this.data[key]]: an own property, or else what the prototype
    gives: the prototype itself for [__proto__], a function of
    [Object.prototype] for its other names, [undefined] otherwise. *)
Definition read (key : string) (data : t) : Value :=
  match data !! key with
  | Some v => v
  | None =>
      if String.eqb key "__proto__" then VObject "Object.prototype"
      else if inherits key then VObject ("Object.prototype." +:+ key)
      else VUndefined
  end.

Definition empty : t := ∅.
Definition set (key : string) (value : Value) (data : t) : t :=
  if String.eqb key "__proto__"
  then if is_object value then <["__proto__" := value]> data else data
  else <[key := value]> data.
Definition get (key : string) (defaultValue : Value) (data : t) : Value :=
  match read key data with
  | VUndefined => defaultValue
  | v => v
  end.
(** [key in this.data] *)
Definition has (key : string) (data : t) : bool :=
  bool_decide (is_Some (data !! key)) || inherits key.
Definition remove (key : string) (data : t) : t :=
  if String.eqb key "__proto__" then data else delete key data.
Definition clear (data : t) : t := ∅.
(** [{...this.data}]: the own properties, on a fresh object. *)
Definition getAll (data : t) : t := delete "__proto__" data.
End HookContext.

(** ** Hook options, handlers and results *)

(** An optional property of an options literal: left out, or present
    (possibly with the value [undefined]). *)
Inductive Prop_ (A : Type) :=
| Absent
| Present (v : option A).
Arguments Absent {A}.
Arguments Present {A} v.

(** [HookOptions] as a caller writes it. Priorities and timeouts are
    integers. *)
Record HookOptions := mkHookOptions {
  priority : Prop_ Z;
  timeout : Prop_ Z;
  description : Prop_ string;
  tags : Prop_ (list string)
}.

(** [{}], the default of the [options] parameter. *)
Definition no_options : HookOptions := mkHookOptions Absent Absent Absent Absent.

(** The options of a stored entry, after [{...defaultOptions, ...options}]:
    a property holds a value or [undefined] ([None]). *)
Record StoredOptions := mkStoredOptions {
  s_priority : option Z;
  s_timeout : option Z;
  s_description : option string;
  s_tags : option (list string)
}.

(** One property of the spread: a property present in [options] wins,
    also when its value is [undefined]. *)
Definition spread {A} (default : option A) (p : Prop_ A) : option A :=
  match p with
  | Absent => default
  | Present v => v
  end.

Definition merge_options (options : HookOptions) : StoredOptions :=
  {| s_priority := spread (Some 10) (priority options);
     s_timeout := spread (Some 30000) (timeout options);
     s_description := spread None (description options);
     s_tags := spread None (tags options) |}.

Inductive Settlement :=
| Fulfilled (v : Value)
| Rejected (reason : Value).

(** What one call of a handler does, as far as [execute] can observe:
    the call throws; or the call returns after [busy] milliseconds of
    synchronous work and what it returns settles [wait] milliseconds
    after that (0 for a plain value or a settled promise); or the call
    returns a promise that never settles. *)
Inductive Behaviour :=
| Throws (reason : Value)
| Settles (busy wait : Z) (s : Settlement)
| Pending.

(** A handler receives the arguments of the call and may read and write
    the shared context of the manager. Handlers that register further
    hooks while a chain runs are outside this model. *)
Definition HookFunction : Type :=
  list Value → HookContext.t → Behaviour * HookContext.t.

Record HookEntry := mkHookEntry {
  fn : HookFunction;
  options : StoredOptions
}.

Record HookResult := mkHookResult {
  success : bool;
  value : option Value;
  error : option Error;
  duration : option Z
}.

Record HookManager := mkHookManager {
  hooks : gmap string (list HookEntry);
  context : HookContext.t
}.

(** The manager before any registration (no [hooks] directory). *)
Definition new_manager : HookManager := mkHookManager ∅ HookContext.empty.

(** The comparator of [register]:
    [(b.options.priority || 0) - (a.options.priority || 0)]. *)
Definition sort_key (h : HookEntry) : Z := Js.num_or (s_priority (options h)) 0.
Definition by_priority (a b : HookEntry) : Z := sort_key b - sort_key a.

Definition register (name : string) (f : HookFunction) (opts : HookOptions)
    (m : HookManager) : HookManager :=
  let chain := default [] (hooks m !! name) in
  let chain' := Js.sort by_priority (chain ++ [mkHookEntry f (merge_options opts)]) in
  mkHookManager (<[name := chain']> (hooks m)) (context m).

(** [setTimeout(cb, delay)]: the runtime sets a delay below 1 or above
    2147483647 to 1. *)
Definition timer_delay (delay : Z) : Z :=
  if (delay <? 1) || (2147483647 <? delay) then 1 else delay.

(** The delay armed for one hook: [hook.options.timeout || 30000]. *)
Definition deadline (h : HookEntry) : Z :=
  timer_delay (Js.num_or (s_timeout (options h)) 30000).

(** The text of [${hook.options.timeout}]. *)
Definition show_timeout (t : option Z) : string :=
  match t with
  | Some n => pretty n
  | None => "undefined"
  end.

Definition timeout_error (name : string) (h : HookEntry) : Error :=
  mkError ("Hook '" +:+ name +:+ "' timed out after "
           +:+ show_timeout (s_timeout (options h)) +:+ "ms").

Definition succeeded (v : Value) (elapsed : Z) : HookResult :=
  mkHookResult true (Some v) None (Some elapsed).
Definition failed (e : Error) : HookResult :=
  mkHookResult false None (Some e) None.

(** The body of the loop of [execute] for one hook, given what the call
    did: the race between the handler and the timer, and the [catch]. The
    timer is created after the call of the handler has returned, so only
    the wait for what the call returned races it, and a handler that
    settles no later than the timer fires wins the race; the duration is
    measured from before the call. *)
Definition hook_result (name : string) (h : HookEntry) (b : Behaviour) : HookResult :=
  match b with
  | Throws reason => failed (as_error reason)
  | Settles busy wait s =>
      if wait <=? deadline h then
        match s with
        | Fulfilled v => succeeded v (busy + wait)
        | Rejected reason => failed (as_error reason)
        end
      else failed (timeout_error name h)
  | Pending => failed (timeout_error name h)
  end.

(** The result of [execute]: the [HookResult]s, the handlers in the order
    they were called, and the shared context the handlers leave. *)
Record Execution := mkExecution {
  results : list HookResult;
  calls : list HookFunction;
  context_after : HookContext.t
}.

Fixpoint execute_chain (name : string) (args : list Value) (chain : list HookEntry)
    (ctx : HookContext.t) : Execution :=
  match chain with
  | [] => mkExecution [] [] ctx
  | hook :: rest =>
      let '(b, ctx') := fn hook args ctx in
      let r := execute_chain name args rest ctx' in
      mkExecution (hook_result name hook b :: results r) (fn hook :: calls r)
                  (context_after r)
  end.

Definition execute (name : string) (args : list Value) (m : HookManager) : Execution :=
  match hooks m !! name with
  | None => mkExecution [] [] (context m)
  | Some chain => execute_chain name args chain (context m)
  end.

(** [executeWithContext]: the shared context object is the first argument. *)
Definition context_ref : Value := VObject "HookContext".
Definition executeWithContext (name : string) (args : list Value) (m : HookManager)
    : Execution :=
  execute name (context_ref :: args) m.

Definition register_all (regs : list (string * HookFunction * HookOptions))
    (m : HookManager) : HookManager :=
  foldl (λ m r, register r.1.1 r.1.2 r.2 m) m regs.

(** ** Hooks loaded from the [hooks] directory *)

(** [s.endsWith(suffix)] *)
Fixpoint endsWith (s suffix : string) : bool :=
  String.eqb s suffix ||
  match s with
  | EmptyString => false
  | String _ s' => endsWith s' suffix
  end.

(** [file.replace(/\.(js|ts)$/, '')]: a final [.js] or [.ts] is removed. *)
Fixpoint strip_extension (file : string) : string :=
  if String.eqb file ".js" || String.eqb file ".ts" then EmptyString
  else match file with
       | EmptyString => EmptyString
       | String a file' => String a (strip_extension file')
       end.

(** The files of the listing that [loadHooksFromDirectory] imports. *)
Definition hook_files (listing : list string) : list string :=
  List.filter (λ file, endsWith file ".js" || endsWith file ".ts") listing.

(** What the import of a hook file gives: it rejects, or the module
    exports a [register] function (whose call changes the manager and may
    throw), or else a default function, or neither. *)
Inductive HookModule :=
| Rejects (message : string)
| ExportsRegister (run : HookManager → HookManager * option string)
| ExportsDefault (f : HookFunction)
| ExportsNeither.

Definition load_warning (file message : string) : string :=
  "Failed to load hook from file " +:+ file +:+ ": " +:+ message.

(** The callbacks on the import of one file, on the manager and the
    warnings printed so far. They run when the import settles, after the
    constructor has returned. *)
Definition on_hook_module (file : string) (hookModule : HookModule)
    (st : HookManager * list string) : HookManager * list string :=
  match hookModule with
  | Rejects message => (st.1, (st.2 ++ [load_warning file message])%list)
  | ExportsRegister run =>
      match run st.1 with
      | (m, Some message) => (m, (st.2 ++ [load_warning file message])%list)
      | (m, None) => (m, st.2)
      end
  | ExportsDefault f => (register (strip_extension file) f no_options st.1, st.2)
  | ExportsNeither => st
  end.

(** ** Suggestion helpers *)

(** What a [confirm] prompt yields: [true], [false], the cancel symbol,
    or a rejection. *)
Inductive Answer :=
| Confirmed
| Declined
| Cancelled
| PromptFailed.

(** The collaborators the hook module calls but does not define. *)
Record Env := mkEnv {
  (** [levenshtein.get(a, b, {useCollator: true})] *)
  levenshtein_get : string → string → Z;
  (** [toConfiguredId(id, this.config)] *)
  toConfiguredId : string → string;
  (** what [new Date().toISOString()] reads while the hook runs *)
  now : string;
  (** the user's reaction to [confirm({message})] *)
  confirm : string → Answer
}.

(** The comparator [(a, b) => a.distance - b.distance] on
    [{distance, id}] records. *)
Definition by_distance (a b : Z * string) : Z := a.1 - b.1.

(** [possibilities.map(id => ({distance, id})).sort(...)] *)
Definition ranked (env : Env) (target : string) (possibilities : list string)
    : list (Z * string) :=
  Js.sort by_distance (map (λ id, (levenshtein_get env target id, id)) possibilities).

(** A parameter with a default value: [None] is an omitted argument. *)
Definition getOrderedSuggestions (env : Env) (target : string)
    (possibilities : list string) (limit : option Z) : list string :=
  map snd (Js.slice 0 (Some (default 3 limit)) (ranked env target possibilities)).

Definition findRelatedCommands (target : string) (commandIDs : list string)
    (limit : option Z) : list string :=
  let parts := Js.split colon target in
  Js.slice 0 (Some (default 2 limit))
    (List.filter (λ cmd, negb (String.eqb cmd target))
       (List.filter (λ cmd, existsb (λ part, Js.includes cmd part) parts) commandIDs)).

(** [sorted[0]?.id ?? ''] *)
Definition closest (env : Env) (target : string) (possibilities : list string) : string :=
  match ranked env target possibilities with
  | [] => ""
  | first :: _ => first.2
  end.

(** ** Command history *)

Record HistoryEntry := mkHistoryEntry {
  command : string;
  timestamp : string
}.

(** The part of the CLI configuration object the hook reads and writes.
    [commandHistory] is [None] while the property is not set. *)
Record Command := mkCommand {
  c_id : string;
  c_hidden : bool;
  c_aliases : list string
}.

Record Config := mkConfig {
  bin : string;
  commandIDs : list string;
  commands : list Command;
  (** whether [config.findTopic(name)] is truthy *)
  findTopic : string → bool;
  commandHistory : option (list HistoryEntry)
}.

Definition with_history (config : Config) (h : option (list HistoryEntry)) : Config :=
  mkConfig (bin config) (commandIDs config) (commands config) (findTopic config) h.

(** [time] is what [new Date().toISOString()] reads at the call. *)
Definition saveCommandHistory (time : string) (config : Config) (cmd : string) : Config :=
  let history := default [] (commandHistory config) in
  let history := (history ++ [mkHistoryEntry cmd time])%list in
  if 100 <? Z.of_nat (length history)
  then with_history config (Some (Js.slice (-100) None history))
  else with_history config (Some history).

(** ** The command_not_found hook *)

Definition COMMAND_BEFORE : string := "command:before".
Definition COMMAND_AFTER : string := "command:after".
Definition COMMAND_NOT_FOUND : string := "command_not_found".

(** The argument of the hook. [opts.config] and [this.config] are the one
    configuration object of the CLI, kept in the state below. *)
Record Opts := mkOpts {
  id : string;
  argv : option (list string)
}.

Definition opts_ref : Value := VObject "opts".
Definition config_ref : Value := VObject "config".

(** An optional argument vector as a value. *)
Definition argv_value (a : option (list string)) : Value :=
  match a with
  | Some l => VStrs l
  | None => VUndefined
  end.

(** What the hook does to the outside, in order. Colours are left out of
    the texts. *)
Inductive Event :=
| ShowHelp (args : list string)
| Warn (text : string)
| Log (text : string)
| Debug
| Confirm (text : string) (answer : Answer)
| Fire (name : string) (args : list Value) (res : list HookResult).

(** How the hook ends: it returns, it returns [this.config.runCommand(...)],
    or [this.error(text, {exit})] ends the process. *)
Inductive Outcome :=
| Returned
| RunCommand (cmd : string) (args : option (list string))
| ExitError (text : string) (exit : Z).

Record State := mkState {
  manager : HookManager;
  config : Config;
  trace : list Event
}.

Definition emit (e : Event) (st : State) : State :=
  mkState (manager st) (config st) (trace st ++ [e])%list.

(** [context.set(key, value)] on the context of the manager. *)
Definition context_set (key : string) (v : Value) (st : State) : State :=
  mkState (mkHookManager (hooks (manager st))
                         (HookContext.set key v (context (manager st))))
          (config st) (trace st).

(** [await hookManager.executeWithContext(name, ...args)] *)
Definition fire (name : string) (args : list Value) (st : State) : State :=
  let ex := executeWithContext name args (manager st) in
  mkState (mkHookManager (hooks (manager st)) (context_after ex))
          (config st)
          (trace st ++ [Fire name (context_ref :: args) (results ex)])%list.

(** [confirm] inside [try]; the [catch] logs an empty line. *)
Definition ask (env : Env) (text : string) (st : State) : Answer * State :=
  let answer := confirm env text in
  let st := emit (Confirm text answer) st in
  match answer with
  | PromptFailed => (answer, emit Debug (emit (Log "") st))
  | _ => (answer, st)
  end.

(** The visible command identifiers: ids and aliases, hidden ones removed. *)
Definition visible_ids (cfg : Config) : list string :=
  let hiddenCommandIds := map c_id (List.filter c_hidden (commands cfg)) in
  List.filter (λ c, negb (existsb (String.eqb c) hiddenCommandIds))
              (commandIDs cfg ++ flat_map c_aliases (commands cfg))%list.

(** [(/:?help:?/).test(id)]: both colons are optional, so the pattern
    matches exactly when [help] occurs in [id]. *)
Definition help_like (id : string) : bool := Js.includes id "help".

Definition primary_suggestion (env : Env) (opts : Opts) (commandIDs : list string) : string :=
  if help_like (id opts)
  then Js.join ":" ("help" :: List.filter (λ cmd, negb (String.eqb cmd "help"))
                                          (Js.split colon (id opts)))
  else closest env (id opts) commandIDs.

Definition alternatives (env : Env) (opts : Opts) (commandIDs : list string)
    (suggestion : string) : list string :=
  List.filter (λ s, negb (String.eqb s suggestion))
              (getOrderedSuggestions env (id opts) commandIDs (Some 3)).

Definition bin_help (cfg : Config) (opts : Opts) : string :=
  let binHelp := bin cfg +:+ " help" in
  let first := hd "" (Js.split colon (id opts)) in
  if findTopic cfg first then binHelp +:+ " " +:+ first else binHelp.

(** The branch [if (response === true)]. *)
Definition run_primary (opts : Opts) (suggestion : string) (st : State)
    : State * Outcome :=
  let argv0 :=
    match argv opts with
    | Some (a :: l) => a :: l
    | _ => Js.slice (Z.of_nat (length (Js.split colon suggestion))) None
                    (Js.split colon (id opts))
    end in
  let '(suggestion, argv1) :=
    if Js.startsWith suggestion "help:"
    then ("help", Js.slice 1 None (Js.split colon suggestion))
    else (suggestion, argv0) in
  if String.eqb (id opts) "help" then (st, RunCommand "--help" None)
  else
    let st := context_set "suggestedCommand" (VStr suggestion) st in
    let st := context_set "suggestedArgv" (VStrs argv1) st in
    let st := fire COMMAND_AFTER [opts_ref; VStr suggestion; VStrs argv1] st in
    (st, RunCommand suggestion (Some argv1)).

(** The tail of the hook, after the prompts: the error hooks and the exit. *)
Definition fail (binHelp : string) (opts : Opts) (st : State) : State * Outcome :=
  let st := context_set "error" (VError (mkError ("Command not found: " +:+ id opts))) st in
  let st := fire "error" [opts_ref] st in
  (st, ExitError ("Run " +:+ binHelp +:+ " for a list of available commands.") 127).

(** The texts of the two prompts. *)
Definition primary_question (env : Env) (opts : Opts) (suggestion : string) : string :=
  let readableSuggestion :=
    if String.eqb (id opts) "help" then "--help" else toConfiguredId env suggestion in
  "Did you mean " +:+ readableSuggestion +:+ "? [y/n]".
Definition alternative_question (env : Env) (alt : string) : string :=
  "Would you like to run " +:+ toConfiguredId env alt +:+ " instead? [y/n]".

(** The branch [if (alternativeSuggestions.length > 0)] and what follows. *)
Definition prompt_alternative (env : Env) (binHelp : string) (opts : Opts)
    (alternativeSuggestions : list string) (st : State) : State * Outcome :=
  match alternativeSuggestions with
  | [] => fail binHelp opts st
  | alt :: _ =>
      let '(altResponse, st) := ask env (alternative_question env alt) st in
      match altResponse with
      | Confirmed =>
          let st := context_set "suggestedCommand" (VStr alt) st in
          let st := context_set "suggestedArgv" (argv_value (argv opts)) st in
          let st := fire COMMAND_AFTER [opts_ref; VStr alt; argv_value (argv opts)] st in
          (st, RunCommand alt (argv opts))
      | _ => fail binHelp opts st
      end
  end.

(** Printing a titled list when it is not empty. *)
Definition log_list (title : string) (env : Env) (l : list string) (st : State) : State :=
  match l with
  | [] => st
  | _ => foldl (λ st s, emit (Log ("  " +:+ toConfiguredId env s)) st)
               (emit (Log title) st) l
  end.

(** The head of the hook: the context is filled and the [command:before]
    hooks run. *)
Definition start (opts : Opts) (st : State) : State :=
  let st := context_set "command" (VStr (id opts)) st in
  let st := context_set "argv" (argv_value (argv opts)) st in
  let st := context_set "config" config_ref st in
  fire COMMAND_BEFORE [opts_ref] st.

(** From the warning to the first prompt: the warning, the history entry
    and the two lists. *)
Definition announce (env : Env) (opts : Opts) (commandIDs : list string)
    (suggestion : string) (st : State) : State :=
  let originalCmd := toConfiguredId env (id opts) in
  let st := emit (Warn (originalCmd +:+ " is not a " +:+ bin (config st) +:+ " command.")) st in
  let alternativeSuggestions := alternatives env opts commandIDs suggestion in
  let relatedCommands := findRelatedCommands (id opts) commandIDs None in
  let st := mkState (manager st) (saveCommandHistory (now env) (config st) (id opts))
                    (trace st) in
  let st := log_list (String "010" "Other suggestions:") env alternativeSuggestions st in
  log_list (String "010" "Related commands:") env relatedCommands st.

Definition commandNotFoundHook (env : Env) (opts : Opts) (st : State) : State * Outcome :=
  let st := start opts st in
  if String.eqb (id opts) "--help" then (emit (ShowHelp ["--help"]) st, Returned)
  else
    let commandIDs := visible_ids (config st) in
    match commandIDs with
    | [] => (st, Returned)
    | _ =>
        let binHelp := bin_help (config st) opts in
        let suggestion := primary_suggestion env opts commandIDs in
        let alternativeSuggestions := alternatives env opts commandIDs suggestion in
        let st := announce env opts commandIDs suggestion st in
        let '(response, st) := ask env (primary_question env opts suggestion) st in
        match response with
        | Confirmed => run_primary opts suggestion st
        | _ => prompt_alternative env binHelp opts alternativeSuggestions st
        end
    end.

(** ** The user configuration phase of the plugin loader *)

Module Loader.

Definition MODULE_PREFIX : string := "asyncapi-cli-plugin-".

(** The default export of a plugin module, as far as the loader looks at
    it: its name and whether [typeof register === 'function']. *)
Record Plugin := mkPlugin {
  name : string;
  register_is_function : bool
}.

(** Modelled from the spec: [registerPlugin] of the [PluginRegistry] in
    [./pluginRegistry], which is not among the sources. The registry is a
    mapping from plugin name to plugin; [registerPlugin] inserts or
    overwrites by name and never fails. *)
Definition registerPlugin (p : Plugin) (registry : gmap string Plugin) : gmap string Plugin :=
  <[name p := p]> registry.
(** Modelled from the spec: [getPlugin] of the same registry, which
    returns the plugin of a name or an absent value. *)
Definition getPlugin (pluginName : string) (registry : gmap string Plugin) : option Plugin :=
  registry !! pluginName.

(** What [import(...)] is called with: a path resolved against the
    directory of the configuration file, or a package name. *)
Inductive Specifier :=
| Resolved (filepath pluginName : string)
| Package (packageName : string).

(** What [await import(...)] yields: it rejects, or it gives a module
    with or without a default export. *)
Inductive Imported :=
| ImportFails
| Module (default_export : option Plugin).

Record PluginConfig := mkPluginConfig { enabled : bool }.

(** What [explorer.search()] yields: it rejects, it finds nothing, or it
    finds a file whose document has a [plugins] mapping or none. The
    mapping is listed in the order of [Object.entries]. *)
Inductive SearchResult :=
| SearchFails
| NotFound
| Found (filepath : string) (plugins : option (list (string * PluginConfig))).

Inductive LoadEvent :=
| Import (what : Specifier)
| Registered (pluginName : string)
| Failed (pluginName : string)
| SearchFailed.

Record LoadState := mkLoadState {
  registry : gmap string Plugin;
  events : list LoadEvent
}.

(** The [try] around one [import]: register a module of the right shape,
    report a rejected import, ignore anything else. *)
Definition load_module (import : Specifier → Imported) (pluginName : string)
    (what : Specifier) (st : LoadState) : LoadState :=
  let st := mkLoadState (registry st) (events st ++ [Import what])%list in
  match import what with
  | ImportFails => mkLoadState (registry st) (events st ++ [Failed pluginName])%list
  | Module (Some plugin) =>
      if register_is_function plugin
      then mkLoadState (registerPlugin plugin (registry st))
                       (events st ++ [Registered (name plugin)])%list
      else st
  | Module None => st
  end.

Definition is_path (pluginName : string) : bool :=
  Js.startsWith pluginName "./" || Js.startsWith pluginName "/".

(** The name a package identifier is imported under. *)
Definition package_name (pluginName : string) : string :=
  if Js.startsWith pluginName MODULE_PREFIX then pluginName
  else MODULE_PREFIX +:+ pluginName.

(** The body of the loop over [Object.entries(pluginsConfig)]. *)
Definition load_entry (import : Specifier → Imported) (filepath : string)
    (entry : string * PluginConfig) (st : LoadState) : LoadState :=
  let '(pluginName, config) := entry in
  if enabled config then
    if is_path pluginName then
      load_module import pluginName (Resolved filepath pluginName) st
    else
      match getPlugin pluginName (registry st) with
      | None => load_module import pluginName (Package (package_name pluginName)) st
      | Some _ => st
      end
  else st.

(** The outer [catch] reports a search that rejects. *)
Definition loadUserConfigPlugins (import : Specifier → Imported)
    (search : SearchResult) (st : LoadState) : LoadState :=
  match search with
  | Found filepath (Some pluginsConfig) =>
      foldl (λ st entry, load_entry import filepath entry st) st pluginsConfig
  | SearchFails => mkLoadState (registry st) (events st ++ [SearchFailed])%list
  | _ => st
  end.

End Loader.

(** ** The directory phases of the plugin loader *)

Module Scan.

(** An entry of [fs.readdir(dir, {withFileTypes: true})]. *)
Record DirEntry := mkDirEntry {
  entry_name : string;
  isDirectory : bool
}.

(** What [fs.readdir] yields: it rejects, or it lists the directory. *)
Inductive Listing :=
| ReaddirFails
| Entries (entries : list DirEntry).

(** What a scan does to the outside: the imports of [path.join(dir, name)]
    and the lines it prints. *)
Inductive ScanEvent :=
| Loading (dir entryName : string)
| Registered (pluginName : string)
| Invalid (entryName : string)
| Failed (entryName : string)
| Inaccessible (dir : string).

Record ScanState := mkScanState {
  registry : gmap string Loader.Plugin;
  events : list ScanEvent
}.

Definition say (e : ScanEvent) (st : ScanState) : ScanState :=
  mkScanState (registry st) (events st ++ [e])%list.

(** The collaborators of a scan: [fs.readdir] and the import of
    [path.join(dir, name)]. *)
Record World := mkWorld {
  readdir : string → Listing;
  import_at : string → string → Loader.Imported
}.

(** The body of the loop of [loadPluginsFromDirectory]. *)
Definition scan_entry (w : World) (dir : string) (entry : DirEntry) (st : ScanState)
    : ScanState :=
  if isDirectory entry then
    let st := say (Loading dir (entry_name entry)) st in
    match import_at w dir (entry_name entry) with
    | Loader.ImportFails => say (Failed (entry_name entry)) st
    | Loader.Module (Some plugin) =>
        if Loader.register_is_function plugin
        then say (Registered (Loader.name plugin))
                 (mkScanState (Loader.registerPlugin plugin (registry st)) (events st))
        else say (Invalid (entry_name entry)) st
    | Loader.Module None => say (Invalid (entry_name entry)) st
    end
  else st.

Definition loadPluginsFromDirectory (w : World) (dir : string) (st : ScanState)
    : ScanState :=
  match readdir w dir with
  | ReaddirFails => say (Inaccessible dir) st
  | Entries entries => foldl (λ st entry, scan_entry w dir entry st) st entries
  end.

(** [builtInPluginsDir] is [path.join(__dirname, '..', 'built-in-plugins')]. *)
Definition loadBuiltInPlugins (w : World) (builtInPluginsDir : string) (st : ScanState)
    : ScanState :=
  loadPluginsFromDirectory w builtInPluginsDir st.

(** The body of the loop of [loadNodeModulesPlugins]: a module of another
    shape is passed over in silence. *)
Definition scan_module (w : World) (nodeModulesPath : string) (pluginModule : DirEntry)
    (st : ScanState) : ScanState :=
  let st := say (Loading nodeModulesPath (entry_name pluginModule)) st in
  match import_at w nodeModulesPath (entry_name pluginModule) with
  | Loader.ImportFails => say (Failed (entry_name pluginModule)) st
  | Loader.Module (Some plugin) =>
      if Loader.register_is_function plugin
      then say (Registered (Loader.name plugin))
               (mkScanState (Loader.registerPlugin plugin (registry st)) (events st))
      else st
  | Loader.Module None => st
  end.

(** [nodeModulesPath] is [path.resolve('node_modules')]. *)
Definition loadNodeModulesPlugins (w : World) (nodeModulesPath : string) (st : ScanState)
    : ScanState :=
  match readdir w nodeModulesPath with
  | ReaddirFails => say (Inaccessible nodeModulesPath) st
  | Entries entries =>
      let pluginModules :=
        List.filter (λ entry, isDirectory entry
                              && Js.startsWith (entry_name entry) Loader.MODULE_PREFIX)
                    entries in
      foldl (λ st pluginModule, scan_module w nodeModulesPath pluginModule st)
            st pluginModules
  end.

End Scan.

(** ** Instances used in the examples *)

(** The edit distance with code units compared for equality, for
    identifiers on which the collator distinguishes every letter; computed
    row by row. [edit_row x b prev left diag] fills the row of [x] from the
    row above, [left] and [diag] being the neighbours of the next cell. *)
Fixpoint edit_row (x : ascii) (b : string) (prev : list Z) (left diag : Z) : list Z :=
  match b, prev with
  | String y b', up :: prev' =>
      let cell := Z.min (Z.min (up + 1) (left + 1))
                        (diag + (if Ascii.eqb x y then 0 else 1)) in
      cell :: edit_row x b' prev' cell up
  | _, _ => []
  end.

Fixpoint edit_rows (a b : string) (row : list Z) : list Z :=
  match a, row with
  | String x a', first :: above =>
      edit_rows a' b ((first + 1) :: edit_row x b above (first + 1) first)
  | _, _ => row
  end.

Definition edit_distance (a b : string) : Z :=
  List.last (edit_rows a b (map Z.of_nat (seq 0 (S (String.length b))))) 0.

(** A user who answers every prompt the same way. *)
Definition plain_env (answer : Answer) : Env :=
  mkEnv edit_distance (λ id, id) "2024-01-01T00:00:00.000Z" (λ _, answer).

(** A handler that returns its label at once and appends it to the list
    kept under [order] in the shared context. *)
Definition labelled (label : string) : HookFunction :=
  λ _ ctx,
    let seen := match ctx !! "order" with Some (VStrs l) => l | _ => [] end in
    (Settles 0 0 (Fulfilled (VStr label)), <["order" := VStrs (seen ++ [label])]> ctx).

Definition hanging : HookFunction := λ _ ctx, (Pending, ctx).

Definition with_priority (p : Z) : HookOptions :=
  mkHookOptions (Present (Some p)) Absent Absent Absent.
Definition with_timeout (t : Z) : HookOptions :=
  mkHookOptions Absent (Present (Some t)) Absent Absent.

(** ** Notions used to state the properties *)

(** The chain stored under a name, empty while the name has none. *)
Definition chain_of (name : string) (m : HookManager) : list HookEntry :=
  default [] (hooks m !! name).

(** The entries that a sequence of [register] calls creates under one
    name, in the order of the calls. *)
Definition entries_for (name : string) (regs : list (string * HookFunction * HookOptions))
    : list HookEntry :=
  map (λ r, mkHookEntry r.1.2 (merge_options r.2)) (filter (λ r, r.1.1 = name) regs).

(** The three registrations of the ordering example. *)
Definition three_hooks : HookManager :=
  register_all [("h", labelled "five", with_priority 5);
                ("h", labelled "twenty", with_priority 20);
                ("h", labelled "ten", with_priority 10)] new_manager.

(** What the handlers of a chain do when they are called in order, each
    one on the context its predecessors leave. *)
Fixpoint behaviours (args : list Value) (chain : list HookEntry) (ctx : HookContext.t)
    : list Behaviour :=
  match chain with
  | [] => []
  | hook :: rest =>
      let '(b, ctx') := fn hook args ctx in
      b :: behaviours args rest ctx'
  end.





(** The history log of a configuration, empty while the property is not
    set, and a run of appends, each with the time of its call. *)
Definition history_of (config : Config) : list HistoryEntry :=
  default [] (commandHistory config).
Definition save_all (appends : list (string * string)) (config : Config) : Config :=
  foldl (λ config a, saveCommandHistory a.1 config a.2) config appends.

(** The distance of a candidate from the target. *)
Definition distance (env : Env) (target id : string) : Z := levenshtein_get env target id.

(** [part] occurs in [s]. *)
Definition occurs_in (part s : string) : Prop :=
  ∃ pre post, s = pre +:+ part +:+ post.

(** A candidate is related to the target: it is not the target, and one
    of the segments of the target occurs in it. *)
Definition related_to (target cmd : string) : Prop :=
  cmd ≠ target ∧ ∃ part, part ∈ Js.split colon target ∧ occurs_in part cmd.

(** The target begins or ends with a colon, or has two adjacent colons. *)
Definition has_empty_segment (target : string) : Prop :=
  (∃ rest, target = ":" +:+ rest)
  ∨ (∃ pre, target = pre +:+ ":")
  ∨ occurs_in "::" target.

(** The entries a run of appends adds, oldest first. *)
Definition appended (appends : list (string * string)) : list HistoryEntry :=
  map (λ a, mkHistoryEntry a.2 a.1) appends.

(** A configuration without a history, and 150 appends. *)
Definition bare_config : Config :=
  mkConfig "asyncapi" ["config:set"; "config:get"; "help"] [] (λ _, false) None.
Definition many_appends : list (string * string) :=
  map (λ n : nat, ("2024-01-01T00:00:00.000Z", "cmd" +:+ pretty n)) (seq 0 150).

(** What [ask] adds to the trace. *)
Definition asked (env : Env) (text : string) : list Event :=
  match confirm env text with
  | PromptFailed => [Confirm text PromptFailed; Log ""; Debug]
  | answer => [Confirm text answer]
  end.

(** The state in which the hook asks its first question. *)
Definition at_first_prompt (env : Env) (opts : Opts) (st : State) : State :=
  announce env opts (visible_ids (config st))
           (primary_suggestion env opts (visible_ids (config st))) (start opts st).

(** A registry that holds a plugin under a prefixed package name, and a
    loader environment in which every import gives that plugin. *)
Definition foo_plugin : Loader.Plugin :=
  Loader.mkPlugin "asyncapi-cli-plugin-foo" true.
Definition foo_registered : Loader.LoadState :=
  Loader.mkLoadState {["asyncapi-cli-plugin-foo" := foo_plugin]} [].
Definition import_foo : Loader.Specifier → Loader.Imported :=
  λ _, Loader.Module (Some foo_plugin).

(** Every prompt of the hook is declined, cancelled or fails: the hook
    gets as far as its first prompt, the answer to it is not [true], and
    neither is the answer to the prompt for the first alternative, when
    there is one. *)
Definition declined_all (env : Env) (opts : Opts) (st : State) : Prop :=
  let ids := visible_ids (config st) in
  let suggestion := primary_suggestion env opts ids in
  id opts ≠ "--help"
  ∧ ids ≠ []
  ∧ confirm env (primary_question env opts suggestion) ≠ Confirmed
  ∧ match alternatives env opts ids suggestion with
    | [] => True
    | alt :: _ => confirm env (alternative_question env alt) ≠ Confirmed
    end.

(** What the prompts add to the trace in that case. *)
Definition prompts_asked (env : Env) (opts : Opts) (st : State) : list Event :=
  let ids := visible_ids (config st) in
  let suggestion := primary_suggestion env opts ids in
  (asked env (primary_question env opts suggestion)
   ++ match alternatives env opts ids suggestion with
      | [] => []
      | alt :: _ => asked env (alternative_question env alt)
      end)%list.

(** The state of the examples: no hooks, three visible commands. *)
Definition bare_state : State := mkState new_manager bare_config [].

(** A configuration in which [help] is not a command. *)
Definition no_help_config : Config :=
  mkConfig "asyncapi" ["config:set"; "config:get"] [] (λ _, false) None.

(** Options that set the priority to [undefined]. *)
Definition undefined_priority : HookOptions :=
  mkHookOptions (Present None) Absent Absent Absent.

(** A command is hidden by the configuration: it is the identifier of a
    command marked hidden. *)
Definition hidden_in (cfg : Config) (c : string) : Prop :=
  ∃ cmd, cmd ∈ commands cfg ∧ c_hidden cmd = true ∧ c_id cmd = c.

(** A configuration with a hidden command and an alias. *)
Definition aliased_config : Config :=
  mkConfig "asyncapi" ["config:set"; "secret"]
           [mkCommand "secret" true ["s"]; mkCommand "config:set" false ["set"]]
           (λ _, false) None.

(** Every plugin of a registry is stored under its own name and has a
    [register] function. *)
Definition well_keyed (registry : gmap string Loader.Plugin) : Prop :=
  ∀ k p, registry !! k = Some p →
         Loader.name p = k ∧ Loader.register_is_function p = true.

(** What an entry of the user configuration is imported as. *)
Definition specifier_of (filepath pluginName : string) : Loader.Specifier :=
  if Loader.is_path pluginName then Loader.Resolved filepath pluginName
  else Loader.Package (Loader.package_name pluginName).

(** An import gives nothing to register: it rejects, or the module has
    no default export, or the export has no [register] function. *)
Definition nothing_to_register (imported : Loader.Imported) : Prop :=
  match imported with
  | Loader.ImportFails | Loader.Module None => True
  | Loader.Module (Some plugin) => Loader.register_is_function plugin = false
  end.

(** A plugin that names itself [foo], and imports that give it. *)
Definition short_plugin : Loader.Plugin := Loader.mkPlugin "foo" true.
Definition import_short : Loader.Specifier → Loader.Imported :=
  λ _, Loader.Module (Some short_plugin).
(** Imports that all reject. *)
Definition import_nothing : Loader.Specifier → Loader.Imported :=
  λ _, Loader.ImportFails.

(** A [node_modules] directory with one plugin package among other
    entries. *)
Definition some_node_modules : Scan.World :=
  Scan.mkWorld
    (λ _, Scan.Entries [Scan.mkDirEntry "lodash" true;
                        Scan.mkDirEntry "asyncapi-cli-plugin-foo" true;
                        Scan.mkDirEntry "asyncapi-cli-plugin-notes.txt" false])
    (λ _ _, Loader.Module (Some foo_plugin)).

(** The imports of a scan, in order: directory and entry name. *)
Definition imports_of (events : list Scan.ScanEvent) : list (string * string) :=
  flat_map (λ e, match e with Scan.Loading dir entryName => [(dir, entryName)] | _ => [] end)
           events.

(** * Properties *)

(** ** The stable sort *)

Section SortFacts.
Context {A : Type} (cmp : A → A → Z) (key : A → Z).
Hypothesis cmp_key : ∀ a b, cmp a b <= 0 ↔ key a <= key b.

Let le_key (a b : A) : Prop := key a <= key b.

Lemma sort_insert_perm x l : Js.sort_insert cmp x l ≡ₚ x :: l.
Proof.
  induction l as [|y l IH]; simpl; [done|].
  destruct (cmp x y <=? 0); [done|].
  rewrite IH. apply perm_swap.
Qed.

Lemma sort_perm l : Js.sort cmp l ≡ₚ l.
Proof.
  induction l as [|x l IH]; simpl; [done|].
  rewrite sort_insert_perm. by rewrite IH.
Qed.

Lemma sort_insert_sorted x l :
  StronglySorted le_key l → StronglySorted le_key (Js.sort_insert cmp x l).
Proof.
  induction 1 as [|y l Hl IH Hy]; simpl.
  - repeat constructor.
  - destruct (Z.leb_spec (cmp x y) 0) as [Hle|Hgt].
    + apply cmp_key in Hle. constructor; [by constructor|].
      constructor; [done|].
      eapply Forall_impl; [exact Hy|]. unfold le_key. simpl. lia.
    + constructor; [done|].
      rewrite sort_insert_perm. constructor; [|done].
      unfold le_key.
      destruct (Z.le_gt_cases (key x) (key y)) as [Hxy|Hxy]; [|lia].
      apply cmp_key in Hxy. lia.
Qed.

Lemma sort_sorted l : StronglySorted le_key (Js.sort cmp l).
Proof.
  induction l as [|x l IH]; simpl; [constructor|].
  by apply sort_insert_sorted.
Qed.

(** Stability: the elements of one key keep their order. *)
Lemma sort_insert_stable k x l :
  filter (λ a, key a = k) (Js.sort_insert cmp x l) = filter (λ a, key a = k) (x :: l).
Proof.
  induction l as [|y l IH]; simpl; [done|].
  destruct (Z.leb_spec (cmp x y) 0) as [Hle|Hgt]; [done|].
  assert (key y < key x) as Hlt.
  { destruct (Z.le_gt_cases (key x) (key y)) as [Hxy|Hxy]; [|lia].
    apply cmp_key in Hxy. lia. }
  rewrite !filter_cons in *.
  destruct (decide (key y = k)) as [Hy|Hy]; destruct (decide (key x = k)) as [Hx|Hx];
    try lia; by rewrite IH.
Qed.

Lemma sort_stable k l :
  filter (λ a, key a = k) (Js.sort cmp l) = filter (λ a, key a = k) l.
Proof.
  induction l as [|x l IH]; simpl; [done|].
  rewrite sort_insert_stable, !filter_cons. by rewrite IH.
Qed.

(** The head of the sorted list is the first element of least key. *)
Lemma sort_head c rest l :
  Js.sort cmp l = c :: rest →
  ∃ l1 l2, l = (l1 ++ c :: l2)%list
           ∧ Forall (λ a, key c < key a) l1 ∧ Forall (λ a, key c <= key a) l2.
Proof.
  intros Hs.
  assert (Forall (λ a, key c <= key a) l) as Hmin.
  { rewrite <- (sort_perm l), Hs.
    pose proof (sort_sorted l) as Hsorted. rewrite Hs in Hsorted.
    inversion Hsorted; subst. constructor; [lia|done]. }
  pose proof (sort_stable (key c) l) as Hst. rewrite Hs, filter_cons in Hst.
  destruct (decide (key c = key c)) as [_|]; [|done].
  clear Hs. revert Hst Hmin. generalize (filter (λ a, key a = key c) rest). intros r.
  induction l as [|y l IH]; intros Hst Hmin; [done|].
  inversion Hmin as [|? ? Hy Hl]; subst.
  rewrite filter_cons in Hst. destruct (decide (key y = key c)) as [Heq|Hne].
  - injection Hst as -> _. exists [], l. by repeat split.
  - destruct (IH Hst Hl) as (l1 & l2 & -> & H1 & H2).
    exists (y :: l1), l2. repeat split; [|done]. constructor; [lia|done].
Qed.
End SortFacts.

Lemma strongly_sorted_weaken {A} (R S : A → A → Prop) (l : list A) :
  (∀ a b, R a b → S a b) → StronglySorted R l → StronglySorted S l.
Proof.
  intros HRS. induction 1 as [|x l Hl IH Hx]; constructor; [done|].
  eapply Forall_impl; [exact Hx|]. intros y. apply HRS.
Qed.

Lemma sort_map {A B} (f : A → B) (cmp : B → B → Z) (l : list A) :
  Js.sort cmp (map f l) = map f (Js.sort (λ a b, cmp (f a) (f b)) l).
Proof.
  induction l as [|x l IH]; simpl; [done|].
  rewrite IH. generalize (Js.sort (λ a b, cmp (f a) (f b)) l). intros s.
  induction s as [|y s IHs]; simpl; [done|].
  destruct (cmp (f x) (f y) <=? 0); simpl; [done|]. by rewrite IHs.
Qed.

(** ** Array slices *)

Lemma slice_first {A} (n : Z) (l : list A) :
  0 <= n → Js.slice 0 (Some n) l = take (Z.to_nat n) l.
Proof.
  intros Hn. unfold Js.slice, Js.rel_index.
  destruct (Z.ltb_spec n 0) as [?|_]; [lia|].
  change (0 <? 0) with false. cbv iota.
  rewrite (Z.min_l 0) by lia. rewrite Z.sub_0_r. change (Z.to_nat 0) with 0%nat.
  rewrite drop_0.
  destruct (Z.le_gt_cases n (Z.of_nat (length l))) as [Hle|Hgt].
  - by rewrite Z.min_l.
  - rewrite Z.min_r by lia. rewrite !take_ge; [done| lia | lia].
Qed.

Lemma slice_from {A} (k : nat) (l : list A) :
  Js.slice (Z.of_nat k) None l = drop k l.
Proof.
  unfold Js.slice, Js.rel_index.
  destruct (Z.ltb_spec (Z.of_nat k) 0) as [?|_]; [lia|].
  destruct (Z.le_gt_cases (Z.of_nat k) (Z.of_nat (length l))) as [Hle|Hgt].
  - rewrite Z.min_l, Nat2Z.id by done.
    apply take_ge. rewrite length_drop. lia.
  - rewrite Z.min_r, Nat2Z.id by lia.
    rewrite !drop_ge; [|lia|lia]. by rewrite take_nil.
Qed.

Lemma slice_last {A} (n : nat) (l : list A) :
  (0 < n)%nat → Js.slice (- Z.of_nat n) None l = drop (length l - n) l.
Proof.
  intros Hn. unfold Js.slice, Js.rel_index.
  destruct (Z.ltb_spec (- Z.of_nat n) 0) as [_|?]; [|lia].
  replace (Z.to_nat (Z.max (Z.of_nat (length l) + - Z.of_nat n) 0))
    with (length l - n)%nat by lia.
  apply take_ge. rewrite length_drop. lia.
Qed.

(** ** The hook manager *)

Lemma by_priority_key (a b : HookEntry) :
  by_priority a b <= 0 ↔ - sort_key a <= - sort_key b.
Proof. unfold by_priority. lia. Qed.

Lemma sort_key_priority (h : HookEntry) :
  sort_key h = default 0 (s_priority (options h)).
Proof.
  unfold sort_key, Js.num_or. destruct (s_priority (options h)) as [p|]; simpl; [|done].
  destruct (Z.eqb_spec p 0); congruence.
Qed.

Lemma chain_register (name name' : string) f o m :
  chain_of name' (register name f o m) =
    if decide (name = name')
    then Js.sort by_priority (chain_of name m ++ [mkHookEntry f (merge_options o)])
    else chain_of name' m.
Proof.
  unfold chain_of, register. simpl. rewrite lookup_insert.
  by destruct (decide (name = name')).
Qed.

Lemma chain_register_all (name : string) regs m :
  chain_of name (register_all regs m) =
    foldl (λ c e, Js.sort by_priority (c ++ [e])) (chain_of name m) (entries_for name regs).
Proof.
  revert m. induction regs as [|[[n f] o] regs IH]; intros m; [done|].
  unfold register_all in *. simpl. rewrite IH, chain_register.
  unfold entries_for. rewrite filter_cons. simpl.
  destruct (decide (n = name)) as [->|Hne]; by simpl.
Qed.

Lemma resort_sorted c es :
  StronglySorted (λ a b, sort_key b <= sort_key a) c →
  StronglySorted (λ a b, sort_key b <= sort_key a)
    (foldl (λ c e, Js.sort by_priority (c ++ [e])) c es).
Proof.
  revert c. induction es as [|e es IH]; intros c Hc; [done|].
  simpl. apply IH.
  pose proof (sort_sorted by_priority (λ h, - sort_key h) by_priority_key (c ++ [e])) as Hs.
  eapply strongly_sorted_weaken; [|exact Hs]. simpl. intros; lia.
Qed.

Lemma resort_stable p c es :
  filter (λ h, sort_key h = p) (foldl (λ c e, Js.sort by_priority (c ++ [e])) c es)
  = (filter (λ h, sort_key h = p) c ++ filter (λ h, sort_key h = p) es)%list.
Proof.
  revert c. induction es as [|e es IH]; intros c; simpl.
  - by rewrite app_nil_r.
  - rewrite IH.
    assert (∀ l, filter (λ h, sort_key h = p) l = filter (λ h : HookEntry, - sort_key h = - p) l)
      as Hext by (intros l; apply list_filter_iff; intros; lia).
    rewrite (Hext (Js.sort _ _)).
    rewrite (sort_stable by_priority (λ h, - sort_key h) by_priority_key).
    rewrite <- Hext, filter_app, <- app_assoc. f_equal.
    rewrite !filter_cons, filter_nil. by destruct (decide (sort_key e = p)).
Qed.

Lemma resort_perm c es :
  foldl (λ c e, Js.sort by_priority (c ++ [e])) c es ≡ₚ (c ++ es)%list.
Proof.
  revert c. induction es as [|e es IH]; intros c; simpl.
  - by rewrite app_nil_r.
  - rewrite IH, (sort_perm by_priority), <- app_assoc. done.
Qed.

Lemma execute_chain_calls name args chain ctx :
  calls (execute_chain name args chain ctx) = map fn chain.
Proof.
  revert ctx. induction chain as [|h chain IH]; intros ctx; simpl; [done|].
  destruct (fn h args ctx) as [b ctx']. simpl. by rewrite IH.
Qed.

Lemma execute_calls name args m :
  calls (execute name args m) = map fn (chain_of name m).
Proof.
  unfold execute, chain_of. destruct (hooks m !! name) as [chain|]; simpl; [|done].
  apply execute_chain_calls.
Qed.

(** C1: after any sequence of [register] calls, the chain stored under a
    name holds exactly the entries registered under it, sorted by
    descending priority (a priority of [undefined] counting as 0), entries
    of equal priority in the order of their registration; [execute] calls
    the handlers in the order of the chain. Handlers registered with
    priorities 5, 20, 10 run in the order 20, 10, 5. *)
Theorem register_keeps_chain_sorted
    (regs : list (string * HookFunction * HookOptions)) (name : string) :
  let m := register_all regs new_manager in
  let chain := chain_of name m in
  StronglySorted (λ a b, sort_key b <= sort_key a) chain
  ∧ chain ≡ₚ entries_for name regs
  ∧ (∀ p, filter (λ h, sort_key h = p) chain
          = filter (λ h, sort_key h = p) (entries_for name regs))
  ∧ (∀ h, sort_key h = default 0 (s_priority (options h)))
  ∧ (∀ args, calls (execute name args m) = map fn chain)
  ∧ map sort_key (chain_of "h" three_hooks) = [20; 10; 5]
  ∧ calls (execute "h" [] three_hooks)
    = [labelled "twenty"; labelled "ten"; labelled "five"]
  ∧ context_after (execute "h" [] three_hooks) !! "order"
    = Some (VStrs ["twenty"; "ten"; "five"]).
Proof.
  intros m chain. subst m chain.
  rewrite chain_register_all.
  change (chain_of name new_manager) with (@nil HookEntry).
  split; [apply resort_sorted; constructor|].
  split; [apply resort_perm|].
  split; [intros p; apply resort_stable|].
  split; [apply sort_key_priority|].
  split; [intros args; rewrite execute_calls, chain_register_all; done|].
  split; [by vm_compute|]. split; by vm_compute.
Qed.

Lemma execute_chain_results name args chain ctx :
  results (execute_chain name args chain ctx)
  = zip_with (hook_result name) chain (behaviours args chain ctx).
Proof.
  revert ctx. induction chain as [|h chain IH]; intros ctx; simpl; [done|].
  destruct (fn h args ctx) as [b ctx']. simpl. by rewrite IH.
Qed.

Lemma behaviours_length args chain ctx :
  length (behaviours args chain ctx) = length chain.
Proof.
  revert ctx. induction chain as [|h chain IH]; intros ctx; simpl; [done|].
  destruct (fn h args ctx) as [b ctx']. simpl. by rewrite IH.
Qed.

Lemma execute_results name args m :
  results (execute name args m)
  = zip_with (hook_result name) (chain_of name m)
             (behaviours args (chain_of name m) (context m)).
Proof.
  unfold execute, chain_of. destruct (hooks m !! name) as [chain|]; simpl; [|done].
  apply execute_chain_results.
Qed.

Lemma deadline_at_least_one (h : HookEntry) : 1 <= deadline h.
Proof.
  unfold deadline, timer_delay.
  destruct (Z.ltb_spec (Js.num_or (s_timeout (options h)) 30000) 1); simpl; [lia|].
  destruct (Z.ltb_spec 2147483647 (Js.num_or (s_timeout (options h)) 30000)); lia.
Qed.





(** ** The suggestion helpers *)

Lemma by_distance_key (env : Env) (target : string) (a b : string) :
  by_distance (distance env target a, a) (distance env target b, b) <= 0
  ↔ distance env target a <= distance env target b.
Proof. unfold by_distance. simpl. lia. Qed.

(** The ranking of the candidates: the stable sort by distance. *)
Lemma ranked_ids (env : Env) (target : string) (possibilities : list string) :
  map snd (ranked env target possibilities)
  = Js.sort (λ a b, by_distance (distance env target a, a) (distance env target b, b))
            possibilities.
Proof.
  unfold ranked. fold (distance env target).
  rewrite (sort_map (λ id, (distance env target id, id)) by_distance).
  rewrite map_map. simpl. apply map_id.
Qed.

Lemma closest_head (env : Env) (target : string) (possibilities : list string) :
  closest env target possibilities = hd "" (map snd (ranked env target possibilities)).
Proof. unfold closest. by destruct (ranked env target possibilities). Qed.

(** C3: [closest] returns the empty string for an empty candidate list,
    and otherwise a candidate whose distance from the target is least,
    the first such candidate of the list: every candidate before it is
    strictly farther, every candidate after it is at least as far. *)
Theorem closest_is_first_nearest (env : Env) (target : string) (possibilities : list string) :
  match possibilities with
  | [] => closest env target possibilities = ""
  | _ :: _ =>
      ∃ before after,
        possibilities = (before ++ closest env target possibilities :: after)%list
        ∧ Forall (λ c, distance env target (closest env target possibilities)
                       < distance env target c) before
        ∧ Forall (λ c, distance env target (closest env target possibilities)
                       <= distance env target c) after
  end
  ∧ closest (plain_env Confirmed) "confi" ["config"; "confit"; "help"] = "config".
Proof.
  split; [|by vm_compute].
  destruct possibilities as [|p ps]; [done|].
  rewrite closest_head, ranked_ids.
  set (cmp := λ a b, by_distance (distance env target a, a) (distance env target b, b)).
  destruct (Js.sort cmp (p :: ps)) as [|c rest] eqn:Hs.
  - pose proof (sort_perm cmp (p :: ps)) as Hp. rewrite Hs in Hp.
    by apply Permutation_nil_cons in Hp.
  - simpl.
    apply (sort_head cmp (distance env target) (by_distance_key env target) c rest).
    exact Hs.
Qed.

(** C8: for a limit that is a count, [getOrderedSuggestions] returns the
    first [limit] entries (3 when no limit is given) of the ranking of
    the candidates: the candidates in ascending order of distance from
    the target, those at equal distance in list order. *)
Theorem ordered_suggestions_are_ranked (env : Env) (target : string)
    (possibilities : list string) (limit : option Z) :
  0 <= default 3 limit →
  ∃ ranking,
    ranking ≡ₚ possibilities
    ∧ StronglySorted (λ a b, distance env target a <= distance env target b) ranking
    ∧ (∀ d, filter (λ c, distance env target c = d) ranking
            = filter (λ c, distance env target c = d) possibilities)
    ∧ getOrderedSuggestions env target possibilities limit
      = take (Z.to_nat (default 3 limit)) ranking
    ∧ getOrderedSuggestions env target possibilities None = take 3 ranking.
Proof.
  intros Hlimit.
  set (cmp := λ a b, by_distance (distance env target a, a) (distance env target b, b)).
  exists (Js.sort cmp possibilities).
  split; [apply sort_perm|].
  split; [apply (sort_sorted cmp (distance env target) (by_distance_key env target))|].
  split; [intros d; apply (sort_stable cmp (distance env target) (by_distance_key env target))|].
  unfold getOrderedSuggestions.
  rewrite !slice_first by done. by rewrite <- !firstn_map, ranked_ids.
Qed.

Lemma ordered_suggestions_are_ranked_witness :
  0 <= default 3 (Some 2)
  ∧ ∃ ranking,
    ranking ≡ₚ ["config:get"; "help"; "config:set"]
    ∧ StronglySorted (λ a b, distance (plain_env Declined) "confi:set" a
                             <= distance (plain_env Declined) "confi:set" b) ranking
    ∧ (∀ d, filter (λ c, distance (plain_env Declined) "confi:set" c = d) ranking
            = filter (λ c, distance (plain_env Declined) "confi:set" c = d)
                     ["config:get"; "help"; "config:set"])
    ∧ getOrderedSuggestions (plain_env Declined) "confi:set"
        ["config:get"; "help"; "config:set"] (Some 2)
      = take (Z.to_nat (default 3 (Some 2))) ranking
    ∧ getOrderedSuggestions (plain_env Declined) "confi:set"
        ["config:get"; "help"; "config:set"] None = take 3 ranking.
Proof.
  split; [simpl; lia|].
  apply (ordered_suggestions_are_ranked (plain_env Declined) "confi:set"
           ["config:get"; "help"; "config:set"] (Some 2)).
  simpl. lia.
Defined.

(** ** Strings *)

Lemma append_cons (a : ascii) (s t : string) :
  String a s +:+ t = String a (s +:+ t).
Proof. reflexivity. Qed.

Lemma startsWith_spec (s p : string) :
  Js.startsWith s p = true ↔ ∃ post, s = p +:+ post.
Proof.
  revert s. induction p as [|b p IH]; intros s; simpl.
  - split; [intros _; by exists s|done].
  - destruct s as [|a s].
    + split; [done|]. by intros [post ?].
    + destruct (Ascii.eqb_spec a b) as [->|Hne].
      * rewrite IH. split; intros [post Hpost]; exists post;
          rewrite append_cons in *; congruence.
      * split; [done|]. intros [post ?]. rewrite append_cons in *. congruence.
Qed.

Lemma includes_spec (s part : string) :
  Js.includes s part = true ↔ occurs_in part s.
Proof.
  unfold occurs_in. induction s as [|a s IH].
  - simpl. rewrite orb_false_r, startsWith_spec. split.
    + intros [post ->]. by exists "", post.
    + intros (pre & post & H). destruct pre; [by exists post|done].
  - change (Js.includes (String a s) part)
      with (Js.startsWith (String a s) part || Js.includes s part).
    rewrite orb_true_iff, IH, startsWith_spec. split.
    + intros [[post ->] | (pre & post & ->)].
      * by exists "", post.
      * by exists (String a pre), post.
    + intros (pre & post & H). destruct pre as [|x pre].
      * left. by exists post.
      * right. exists pre, post. rewrite append_cons in H. congruence.
Qed.

Lemma includes_empty (s : string) : Js.includes s "" = true.
Proof. apply includes_spec. by exists "", s. Qed.

Lemma split_not_nil (c : ascii) (s : string) : Js.split c s ≠ [].
Proof.
  destruct s as [|a s]; simpl; [done|].
  destruct (Ascii.eqb a c); [done|]. by destruct (Js.split c s).
Qed.

(** Splitting at a separator splits the list of segments. *)
Lemma split_app (c : ascii) (s1 s2 : string) :
  Js.split c (s1 +:+ String c s2) = (Js.split c s1 ++ Js.split c s2)%list.
Proof.
  induction s1 as [|a s1 IH].
  - change ("" +:+ String c s2) with (String c s2). simpl. by rewrite Ascii.eqb_refl.
  - rewrite append_cons. simpl. rewrite IH. destruct (Ascii.eqb a c); [done|].
    pose proof (split_not_nil c s1). by destruct (Js.split c s1).
Qed.

Lemma join_cons_char (sep : string) (a : ascii) (seg : string) (segs : list string) :
  Js.join sep (String a seg :: segs) = String a (Js.join sep (seg :: segs)).
Proof. by destruct segs. Qed.

(** The segments, joined by colons, give the string back, and no segment
    has a colon. *)
Lemma split_join (s : string) : Js.join ":" (Js.split colon s) = s.
Proof.
  induction s as [|a s IH]; [done|].
  simpl. destruct (Ascii.eqb_spec a colon) as [->|Hne].
  - pose proof (split_not_nil colon s).
    destruct (Js.split colon s) as [|seg segs] eqn:Hs; [done|].
    change (Js.join ":" ("" :: seg :: segs)) with (":" +:+ Js.join ":" (seg :: segs)).
    by rewrite IH.
  - pose proof (split_not_nil colon s).
    destruct (Js.split colon s) as [|seg segs] eqn:Hs; [done|].
    by rewrite join_cons_char, IH.
Qed.

Lemma split_segments (s : string) :
  Forall (λ seg, Js.includes seg ":" = false) (Js.split colon s).
Proof.
  induction s as [|a s IH]; simpl; [by repeat constructor|].
  destruct (Ascii.eqb_spec a colon) as [->|Hne]; [by constructor|].
  pose proof (split_not_nil colon s).
  destruct (Js.split colon s) as [|seg segs]; [done|].
  inversion IH as [|? ? Hseg Hsegs]; subst. constructor; [|done].
  change (Js.includes (String a seg) ":")
    with (Js.startsWith (String a seg) ":" || Js.includes seg ":").
  rewrite Hseg, orb_false_r. simpl.
  destruct (Ascii.eqb_spec a ":"%char); [done|by destruct seg].
Qed.

Lemma empty_segment (target : string) :
  has_empty_segment target → "" ∈ Js.split colon target.
Proof.
  intros [[rest ->] | [[pre ->] | (pre & post & ->)]].
  - simpl. left.
  - change (pre +:+ ":") with (pre +:+ String colon "").
    rewrite split_app. simpl. set_solver.
  - change (pre +:+ "::" +:+ post) with (pre +:+ String colon (String colon post)).
    rewrite split_app. simpl. set_solver.
Qed.

Lemma filter_filter_bool {A} (f g : A → bool) (l : list A) :
  List.filter f (List.filter g l) = List.filter (λ x, g x && f x) l.
Proof.
  induction l as [|x l IH]; simpl; [done|].
  destruct (g x); simpl; [|done]. destruct (f x); by rewrite IH.
Qed.

Lemma some_part_included (cmd : string) (parts : list string) :
  existsb (λ part, Js.includes cmd part) parts = true
  ↔ ∃ part, part ∈ parts ∧ occurs_in part cmd.
Proof.
  rewrite existsb_exists. split; intros (part & Hin & Hocc); exists part.
  - by rewrite list_elem_of_In, <- includes_spec.
  - by rewrite <- list_elem_of_In, includes_spec.
Qed.

(** C9: for a limit that is a count, [findRelatedCommands] returns the
    first [limit] entries (2 when no limit is given) of the candidates,
    in list order, that are not the target and in which a segment of the
    target occurs; the segments are the pieces of the target between its
    colons. *)
Theorem related_commands_share_a_segment (target : string) (commandIDs : list string)
    (limit : option Z) :
  0 <= default 2 limit →
  ∃ keep : string → bool,
    (∀ cmd, keep cmd = true ↔ related_to target cmd)
    ∧ findRelatedCommands target commandIDs limit
      = take (Z.to_nat (default 2 limit)) (List.filter keep commandIDs)
    ∧ findRelatedCommands target commandIDs None = take 2 (List.filter keep commandIDs)
    ∧ Js.join ":" (Js.split colon target) = target
    ∧ Forall (λ seg, ¬ occurs_in ":" seg) (Js.split colon target).
Proof.
  intros Hlimit.
  exists (λ cmd, existsb (λ part, Js.includes cmd part) (Js.split colon target)
                 && negb (String.eqb cmd target)).
  split; [|split; [|split; [|split]]].
  - intros cmd. unfold related_to.
    rewrite andb_true_iff, negb_true_iff, some_part_included.
    destruct (String.eqb_spec cmd target); split; intros [? ?]; try done.
  - unfold findRelatedCommands. by rewrite slice_first, filter_filter_bool.
  - unfold findRelatedCommands. by rewrite slice_first, filter_filter_bool.
  - apply split_join.
  - eapply Forall_impl; [apply split_segments|].
    intros seg Hseg Hocc. apply includes_spec in Hocc. simpl in Hseg. congruence.
Qed.

Lemma related_commands_share_a_segment_witness :
  0 <= default 2 (Some 1)
  ∧ ∃ keep : string → bool,
      (∀ cmd, keep cmd = true ↔ related_to "confi:set" cmd)
      ∧ findRelatedCommands "confi:set" ["help"; "config:set"; "settings"] (Some 1)
        = take (Z.to_nat (default 2 (Some 1)))
               (List.filter keep ["help"; "config:set"; "settings"])
      ∧ findRelatedCommands "confi:set" ["help"; "config:set"; "settings"] None
        = take 2 (List.filter keep ["help"; "config:set"; "settings"])
      ∧ Js.join ":" (Js.split colon "confi:set") = "confi:set"
      ∧ Forall (λ seg, ¬ occurs_in ":" seg) (Js.split colon "confi:set").
Proof.
  split; [simpl; lia|].
  apply (related_commands_share_a_segment "confi:set"
           ["help"; "config:set"; "settings"] (Some 1)).
  simpl. lia.
Defined.

(** C10: when the target begins or ends with a colon or has two adjacent
    colons, one of its segments is empty and occurs in every candidate;
    [findRelatedCommands] then returns the first [limit] candidates of the
    list that differ from the target. *)
Theorem empty_segment_relates_everything (target : string) (commandIDs : list string)
    (limit : option Z) :
  has_empty_segment target →
  0 <= default 2 limit →
  "" ∈ Js.split colon target
  ∧ (∀ cmd, existsb (λ part, Js.includes cmd part) (Js.split colon target) = true)
  ∧ (∀ cmd, cmd ≠ target → related_to target cmd)
  ∧ findRelatedCommands target commandIDs limit
    = take (Z.to_nat (default 2 limit))
           (List.filter (λ cmd, negb (String.eqb cmd target)) commandIDs).
Proof.
  intros Hempty Hlimit.
  pose proof (empty_segment target Hempty) as Hin.
  assert (∀ cmd, existsb (λ part, Js.includes cmd part) (Js.split colon target) = true)
    as Hall.
  { intros cmd. apply some_part_included. exists "". split; [done|].
    by exists "", cmd. }
  split; [done|]. split; [done|]. split.
  - intros cmd Hne. split; [done|]. by apply some_part_included.
  - unfold findRelatedCommands. rewrite slice_first by done. do 2 f_equal.
    induction commandIDs as [|cmd l IH]; simpl; [done|].
    by rewrite Hall, IH.
Qed.

Lemma empty_segment_relates_everything_witness :
  has_empty_segment ":x"
  ∧ 0 <= default 2 None
  ∧ "" ∈ Js.split colon ":x"
  ∧ (∀ cmd, existsb (λ part, Js.includes cmd part) (Js.split colon ":x") = true)
  ∧ (∀ cmd, cmd ≠ ":x" → related_to ":x" cmd)
  ∧ findRelatedCommands ":x" ["help"; ":x"; "config:set"; "settings"] None
    = take (Z.to_nat (default 2 None))
           (List.filter (λ cmd, negb (String.eqb cmd ":x"))
                        ["help"; ":x"; "config:set"; "settings"]).
Proof.
  assert (has_empty_segment ":x") as H by (left; by exists "x").
  split; [exact H|]. split; [simpl; lia|].
  apply (empty_segment_relates_everything ":x"
           ["help"; ":x"; "config:set"; "settings"] None H).
  simpl. lia.
Defined.

(** ** The command history *)

Lemma keep_latest {A} (k : nat) (l m : list A) :
  drop (length (drop (length l - k) l ++ m) - k) (drop (length l - k) l ++ m)
  = drop (length (l ++ m) - k) (l ++ m).
Proof.
  destruct (Nat.le_gt_cases (length l) k) as [Hle|Hgt].
  - replace (length l - k)%nat with 0%nat by lia. by rewrite drop_0.
  - rewrite !length_app, length_drop.
    replace (length l - (length l - k) + length m - k)%nat with (length m) by lia.
    replace (length l + length m - k)%nat with ((length l - k) + length m)%nat by lia.
    rewrite <- drop_drop. rewrite (drop_app_le l m (length l - k)) by lia. done.
Qed.

Lemma save_history (time : string) (config : Config) (cmd : string) :
  history_of (saveCommandHistory time config cmd)
  = drop (length (history_of config ++ [mkHistoryEntry cmd time]) - 100)
         (history_of config ++ [mkHistoryEntry cmd time]).
Proof.
  unfold saveCommandHistory, history_of.
  set (h := (default [] (commandHistory config) ++ [mkHistoryEntry cmd time])%list).
  destruct (Z.ltb_spec 100 (Z.of_nat (length h))) as [Hlt|Hle]; simpl.
  - change (-100) with (- Z.of_nat 100). rewrite slice_last by lia. done.
  - replace (length h - 100)%nat with 0%nat by lia. by rewrite drop_0.
Qed.

Lemma save_all_history (appends : list (string * string)) (config : Config) :
  appends ≠ [] ∨ (length (history_of config) ≤ 100)%nat →
  history_of (save_all appends config)
  = drop (length (history_of config ++ appended appends) - 100)
         (history_of config ++ appended appends).
Proof.
  revert config. induction appends as [|[time cmd] rest IH]; intros config Hstart.
  - destruct Hstart as [?|Hlen]; [done|]. simpl. rewrite app_nil_r.
    replace (length (history_of config) - 100)%nat with 0%nat by lia. by rewrite drop_0.
  - change (save_all ((time, cmd) :: rest) config)
      with (save_all rest (saveCommandHistory time config cmd)).
    rewrite IH.
    + rewrite save_history. simpl.
      rewrite keep_latest, <- app_assoc. done.
    + right. rewrite save_history, length_drop. lia.
Qed.

(** C6: whatever the configuration holds, after a run of
    [saveCommandHistory] appends (at least one, or from a log that is
    within the bound) the log holds the latest 100 of the old and new
    entries, oldest first, and so at most 100 entries; 150 appends to a
    configuration without a log leave exactly the latest 100. *)
Theorem history_keeps_latest_hundred (config : Config) (appends : list (string * string)) :
  appends ≠ [] ∨ (length (history_of config) ≤ 100)%nat →
  let all := (history_of config ++ appended appends)%list in
  let log := history_of (save_all appends config) in
  (length log ≤ 100)%nat
  ∧ log = drop (length all - 100) all
  ∧ (∃ evicted, all = (evicted ++ log)%list)
  ∧ (commandHistory config = None → length appends = 150%nat →
     length log = 100%nat ∧ log = drop 50 (appended appends)).
Proof.
  intros Hstart all log. subst all log.
  rewrite save_all_history by done.
  set (all := (history_of config ++ appended appends)%list).
  split; [rewrite length_drop; lia|]. split; [done|]. split.
  - exists (take (length all - 100) all). by rewrite take_drop.
  - intros Hnone Hlen. subst all. unfold history_of. rewrite Hnone. simpl.
    assert (length (appended appends) = 150%nat) as ->
      by (unfold appended; by rewrite length_map).
    split; [rewrite length_drop; unfold appended; rewrite length_map; lia|done].
Qed.

Lemma history_keeps_latest_hundred_witness :
  (many_appends ≠ [] ∨ (length (history_of bare_config) ≤ 100)%nat)
  ∧ (length (history_of (save_all many_appends bare_config)) ≤ 100)%nat
  ∧ history_of (save_all many_appends bare_config)
    = drop (length (history_of bare_config ++ appended many_appends) - 100)
           (history_of bare_config ++ appended many_appends)
  ∧ (∃ evicted, (history_of bare_config ++ appended many_appends)%list
                = (evicted ++ history_of (save_all many_appends bare_config))%list)
  ∧ (commandHistory bare_config = None → length many_appends = 150%nat →
     length (history_of (save_all many_appends bare_config)) = 100%nat
     ∧ history_of (save_all many_appends bare_config) = drop 50 (appended many_appends)).
Proof.
  assert (many_appends ≠ [] ∨ (length (history_of bare_config) ≤ 100)%nat) as H
    by (right; simpl; lia).
  split; [exact H|].
  exact (history_keeps_latest_hundred bare_config many_appends H).
Defined.

(** ** The plugin loader *)

(** C4, the claim as stated fails: the entry [foo] resolves to the
    package [asyncapi-cli-plugin-foo], a plugin of that name is
    registered, and the loader imports the package all the same. *)
Lemma registered_package_is_imported_again :
  Loader.is_path "foo" = false
  ∧ Loader.package_name "foo" = "asyncapi-cli-plugin-foo"
  ∧ Loader.getPlugin (Loader.package_name "foo") (Loader.registry foo_registered)
    = Some foo_plugin
  ∧ Loader.events (Loader.load_entry import_foo "/project/.asyncapirc"
                     ("foo", Loader.mkPluginConfig true) foo_registered)
    = [Loader.Import (Loader.Package "asyncapi-cli-plugin-foo");
       Loader.Registered "asyncapi-cli-plugin-foo"].
Proof. by vm_compute. Qed.

(** C4, amended: an enabled entry whose identifier does not start with
    [./] or [/] is a package identifier. It is skipped, with no import and
    no change of the registry, when a plugin is registered under the
    identifier as the configuration writes it; otherwise the package is
    imported under the identifier itself when that starts with
    [asyncapi-cli-plugin-], and under the identifier with that prefix put
    in front when it does not. *)
Theorem package_entries_of_user_config (import : Loader.Specifier → Loader.Imported)
    (filepath pluginName : string) (config : Loader.PluginConfig) (st : Loader.LoadState) :
  Loader.enabled config = true →
  Loader.is_path pluginName = false →
  ((∃ rest, pluginName = Loader.MODULE_PREFIX +:+ rest) →
     Loader.package_name pluginName = pluginName)
  ∧ (¬ (∃ rest, pluginName = Loader.MODULE_PREFIX +:+ rest) →
     Loader.package_name pluginName = Loader.MODULE_PREFIX +:+ pluginName)
  ∧ (is_Some (Loader.getPlugin pluginName (Loader.registry st)) →
     Loader.load_entry import filepath (pluginName, config) st = st)
  ∧ (Loader.getPlugin pluginName (Loader.registry st) = None →
     Loader.load_entry import filepath (pluginName, config) st
     = Loader.load_module import pluginName
         (Loader.Package (Loader.package_name pluginName)) st
     ∧ ∃ more, Loader.events (Loader.load_entry import filepath (pluginName, config) st)
               = (Loader.events st
                  ++ Loader.Import (Loader.Package (Loader.package_name pluginName))
                  :: more)%list).
Proof.
  intros Henabled Hpath. unfold Loader.load_entry. rewrite Henabled, Hpath.
  split; [|split; [|split]].
  - intros Hpre. unfold Loader.package_name.
    by apply startsWith_spec in Hpre as ->.
  - intros Hpre. unfold Loader.package_name.
    destruct (Js.startsWith pluginName Loader.MODULE_PREFIX) eqn:Hs; [|done].
    by apply startsWith_spec in Hs.
  - by intros [p ->].
  - intros ->. split; [done|]. unfold Loader.load_module. simpl.
    destruct (import _) as [|[plugin|]]; simpl.
    + eexists. by rewrite <- app_assoc.
    + destruct (Loader.register_is_function plugin); simpl.
      * eexists. by rewrite <- app_assoc.
      * by exists [].
    + by exists [].
Qed.

Lemma package_entries_of_user_config_witness :
  Loader.enabled (Loader.mkPluginConfig true) = true
  ∧ Loader.is_path "foo" = false
  ∧ Loader.load_entry import_foo "/project/.asyncapirc"
      ("foo", Loader.mkPluginConfig true) (Loader.mkLoadState ∅ [])
    = Loader.load_module import_foo "foo"
        (Loader.Package (Loader.package_name "foo")) (Loader.mkLoadState ∅ []).
Proof.
  split; [reflexivity|]. split; [reflexivity|].
  apply (package_entries_of_user_config import_foo "/project/.asyncapirc" "foo"
           (Loader.mkPluginConfig true) (Loader.mkLoadState ∅ []) eq_refl eq_refl).
  reflexivity.
Defined.

(** ** The command_not_found hook *)

Lemma ask_answer (env : Env) (text : string) (st : State) :
  (ask env text st).1 = confirm env text.
Proof. unfold ask. by destruct (confirm env text). Qed.

Lemma ask_state (env : Env) (text : string) (st : State) :
  (ask env text st).2
  = mkState (manager st) (config st) (trace st ++ asked env text)%list.
Proof.
  unfold ask, asked, emit. destruct (confirm env text); simpl; try done.
  by rewrite <- !app_assoc.
Qed.

(** The hook from its first prompt on. *)
Lemma hook_from_first_prompt (env : Env) (opts : Opts) (st : State) :
  id opts ≠ "--help" →
  visible_ids (config st) ≠ [] →
  commandNotFoundHook env opts st
  = let ids := visible_ids (config st) in
    let suggestion := primary_suggestion env opts ids in
    let st2 := (ask env (primary_question env opts suggestion)
                    (at_first_prompt env opts st)).2 in
    match confirm env (primary_question env opts suggestion) with
    | Confirmed => run_primary opts suggestion st2
    | _ => prompt_alternative env (bin_help (config st) opts) opts
             (alternatives env opts ids suggestion) st2
    end.
Proof.
  intros Hhelp Hids. unfold commandNotFoundHook, at_first_prompt.
  destruct (String.eqb_spec (id opts) "--help") as [?|_]; [done|].
  change (config (start opts st)) with (config st).
  destruct (visible_ids (config st)) as [|i ids] eqn:Hv; [done|].
  cbv zeta.
  set (suggestion := primary_suggestion env opts (i :: ids)).
  set (st1 := announce env opts (i :: ids) suggestion (start opts st)).
  pose proof (ask_answer env (primary_question env opts suggestion) st1) as Ha.
  destruct (ask env (primary_question env opts suggestion) st1) as [response st2].
  simpl in Ha. subst response. done.
Qed.

Lemma run_primary_outcome (opts : Opts) (suggestion : string) (st : State) :
  (run_primary opts suggestion st).2
  = if String.eqb (id opts) "help" then RunCommand "--help" None
    else if Js.startsWith suggestion "help:"
    then RunCommand "help" (Some (drop 1 (Js.split colon suggestion)))
    else RunCommand suggestion
           (Some (match argv opts with
                  | Some (a :: l) => a :: l
                  | _ => drop (length (Js.split colon suggestion))
                              (Js.split colon (id opts))
                  end)).
Proof.
  unfold run_primary. rewrite slice_from.
  change (Js.slice 1 None (Js.split colon suggestion))
    with (Js.slice (Z.of_nat 1) None (Js.split colon suggestion)).
  rewrite slice_from.
  destruct (Js.startsWith suggestion "help:"), (String.eqb (id opts) "help"); try done.
Qed.

Lemma fail_outcome (binHelp : string) (opts : Opts) (st : State) :
  fail binHelp opts st
  = (fire "error" [opts_ref]
       (context_set "error" (VError (mkError ("Command not found: " +:+ id opts))) st),
     ExitError ("Run " +:+ binHelp +:+ " for a list of available commands.") 127).
Proof. done. Qed.

(** A segment without a colon is its own split, and joining segments
    without colons is undone by splitting. *)
Lemma split_plain (s : string) :
  Js.includes s ":" = false → Js.split colon s = [s].
Proof.
  induction s as [|a s IH]; [done|].
  change (Js.includes (String a s) ":")
    with (Js.startsWith (String a s) ":" || Js.includes s ":").
  intros [Hhead Htail]%orb_false_iff. simpl in *.
  destruct (Ascii.eqb_spec a colon) as [->|_].
  - by destruct s.
  - by rewrite IH.
Qed.

Lemma split_of_join (l : list string) :
  l ≠ [] → Forall (λ seg, Js.includes seg ":" = false) l →
  Js.split colon (Js.join ":" l) = l.
Proof.
  induction l as [|x l IH]; [done|]. intros _ Hl.
  inversion Hl as [|? ? Hx Hrest]; subst.
  destruct l as [|y l]; [by apply split_plain|].
  change (Js.join ":" (x :: y :: l)) with (x +:+ String colon (Js.join ":" (y :: l))).
  rewrite split_app, split_plain, IH by done. done.
Qed.

Lemma filter_keeps_forall {A} (P : A → Prop) (f : A → bool) (l : list A) :
  Forall P l → Forall P (List.filter f l).
Proof.
  induction 1 as [|x l Hx Hl IH]; simpl; [constructor|].
  destruct (f x); [by constructor|done].
Qed.

(** The suggestion made for an identifier in which [help] occurs: [help]
    followed by the other segments. *)
Lemma help_suggestion_segments (env : Env) (opts : Opts) (ids : list string) :
  help_like (id opts) = true →
  Js.split colon (primary_suggestion env opts ids)
  = "help" :: List.filter (λ cmd, negb (String.eqb cmd "help")) (Js.split colon (id opts)).
Proof.
  intros Hhelp. unfold primary_suggestion. rewrite Hhelp.
  apply split_of_join; [done|]. constructor; [done|].
  apply filter_keeps_forall, split_segments.
Qed.

(** C5, the claim as stated fails: for the identifier [help] with an
    argument, the suggestion is [help], and confirming it runs [--help]
    without any argument. *)
Lemma confirming_help_runs_the_help_flag :
  primary_suggestion (plain_env Confirmed) (mkOpts "help" (Some ["x"]))
                     (visible_ids no_help_config) = "help"
  ∧ confirm (plain_env Confirmed)
            (primary_question (plain_env Confirmed) (mkOpts "help" (Some ["x"])) "help")
    = Confirmed
  ∧ (commandNotFoundHook (plain_env Confirmed) (mkOpts "help" (Some ["x"]))
       (mkState new_manager no_help_config [])).2
    = RunCommand "--help" None.
Proof. by vm_compute. Qed.

(** C5, amended: when the first prompt is confirmed and the identifier
    is not exactly [help], the hook runs the suggestion with the original
    argument vector when that is not empty, and otherwise with the
    segments of the identifier that follow as many segments as the
    suggestion has, none added and none lost; when the suggestion starts
    with [help:] it runs [help] with the segments of the suggestion after
    the first, which for an identifier in which [help] occurs are the
    other segments of the identifier. For the identifier [help] itself
    the hook runs [--help] with no arguments. With the commands
    [config:set], [config:get], [help] and the identifier [confi:set],
    confirming runs [config:set] with the arguments of the invocation. *)
Theorem confirmed_suggestion_is_run (env : Env) (opts : Opts) (st : State) :
  let ids := visible_ids (config st) in
  let suggestion := primary_suggestion env opts ids in
  let segments := Js.split colon (id opts) in
  let consumed := length (Js.split colon suggestion) in
  id opts ≠ "--help" →
  ids ≠ [] →
  confirm env (primary_question env opts suggestion) = Confirmed →
  (commandNotFoundHook env opts st).2
  = (if String.eqb (id opts) "help" then RunCommand "--help" None
     else if Js.startsWith suggestion "help:"
     then RunCommand "help" (Some (drop 1 (Js.split colon suggestion)))
     else RunCommand suggestion
            (Some (match argv opts with
                   | Some (a :: l) => a :: l
                   | _ => drop consumed segments
                   end)))
  ∧ (take consumed segments ++ drop consumed segments)%list = segments
  ∧ (help_like (id opts) = true →
     Js.split colon suggestion
     = "help" :: List.filter (λ cmd, negb (String.eqb cmd "help")) segments)
  ∧ (∀ given,
       (commandNotFoundHook (plain_env Confirmed) (mkOpts "confi:set" given) bare_state).2
       = RunCommand "config:set" (Some (default [] given))).
Proof.
  intros ids suggestion segments consumed Hhelp Hids Hyes.
  split; [|split; [|split]].
  - rewrite hook_from_first_prompt by done. cbv zeta.
    fold ids. fold suggestion. rewrite Hyes. apply run_primary_outcome.
  - apply take_drop.
  - apply help_suggestion_segments.
  - intros [[|a l]|]; by vm_compute.
Qed.

Lemma confirmed_suggestion_is_run_witness :
  id (mkOpts "confit:set:foo-bar" None) ≠ "--help"
  ∧ visible_ids (config bare_state) ≠ []
  ∧ confirm (plain_env Confirmed)
            (primary_question (plain_env Confirmed) (mkOpts "confit:set:foo-bar" None)
               (primary_suggestion (plain_env Confirmed)
                  (mkOpts "confit:set:foo-bar" None) (visible_ids (config bare_state))))
    = Confirmed
  ∧ (commandNotFoundHook (plain_env Confirmed) (mkOpts "confit:set:foo-bar" None)
       bare_state).2
    = RunCommand "config:set" (Some ["foo-bar"]).
Proof.
  assert (id (mkOpts "confit:set:foo-bar" None) ≠ "--help") as H1 by (simpl; congruence).
  assert (visible_ids (config bare_state) ≠ []) as H2 by (vm_compute; congruence).
  split; [exact H1|]. split; [exact H2|]. split; [reflexivity|].
  destruct (confirmed_suggestion_is_run (plain_env Confirmed)
              (mkOpts "confit:set:foo-bar" None) bare_state H1 H2 eq_refl) as [Hrun _].
  rewrite Hrun. by vm_compute.
Defined.

Lemma prompt_alternative_cases (env : Env) (binHelp : string) (opts : Opts)
    (alts : list string) (st : State) :
  prompt_alternative env binHelp opts alts st
  = match alts with
    | [] => fail binHelp opts st
    | alt :: _ =>
        let st' := (ask env (alternative_question env alt) st).2 in
        match confirm env (alternative_question env alt) with
        | Confirmed =>
            (fire COMMAND_AFTER [opts_ref; VStr alt; argv_value (argv opts)]
               (context_set "suggestedArgv" (argv_value (argv opts))
                  (context_set "suggestedCommand" (VStr alt) st')),
             RunCommand alt (argv opts))
        | _ => fail binHelp opts st'
        end
    end.
Proof.
  destruct alts as [|alt alts]; [done|]. unfold prompt_alternative.
  pose proof (ask_answer env (alternative_question env alt) st) as Ha.
  destruct (ask env (alternative_question env alt) st) as [response st'].
  simpl in Ha. subst response. done.
Qed.

(** When every prompt is declined the hook is its tail [fail], run in
    the state the prompts leave. *)
Lemma declined_hook_fails (env : Env) (opts : Opts) (st : State) :
  declined_all env opts st →
  commandNotFoundHook env opts st
  = fail (bin_help (config st) opts) opts
      (mkState (manager (at_first_prompt env opts st))
               (config (at_first_prompt env opts st))
               (trace (at_first_prompt env opts st) ++ prompts_asked env opts st)%list).
Proof.
  intros (Hhelp & Hids & Hfirst & Halt).
  rewrite hook_from_first_prompt by done. cbv zeta.
  rewrite ask_state, prompt_alternative_cases. unfold prompts_asked.
  destruct (alternatives env opts _ _) as [|alt alts].
  - rewrite app_nil_r. by destruct (confirm env (primary_question _ _ _)).
  - cbv zeta. rewrite ask_state. simpl. rewrite <- app_assoc.
    destruct (confirm env (primary_question _ _ _)); try done;
      by destruct (confirm env (alternative_question env alt)).
Qed.

(** In every other case the hook does not end in [this.error]. *)
Lemma confirmed_hook_does_not_fail (env : Env) (opts : Opts) (st : State)
    (text : string) (code : Z) :
  (commandNotFoundHook env opts st).2 = ExitError text code → declined_all env opts st.
Proof.
  intros Hexit. unfold declined_all.
  destruct (String.eqb_spec (id opts) "--help") as [Heq|Hhelp].
  { unfold commandNotFoundHook in Hexit.
    rewrite Heq in Hexit. by simpl in Hexit. }
  destruct (decide (visible_ids (config st) = [])) as [Hnil|Hids].
  { unfold commandNotFoundHook in Hexit.
    destruct (String.eqb (id opts) "--help"); [done|].
    change (config (start opts st)) with (config st) in Hexit.
    by rewrite Hnil in Hexit. }
  rewrite hook_from_first_prompt in Hexit by done. cbv zeta in Hexit.
  split; [done|]. split; [done|].
  destruct (confirm env (primary_question _ _ _)) eqn:Hfirst.
  { rewrite run_primary_outcome in Hexit.
    destruct (String.eqb (id opts) "help"); [done|].
    by destruct (Js.startsWith _ "help:"). }
  all: split; [done|].
  all: rewrite prompt_alternative_cases in Hexit.
  all: destruct (alternatives env opts _ _) as [|alt alts]; [done|].
  all: cbv zeta in Hexit.
  all: by destruct (confirm env (alternative_question env alt)).
Qed.

(** C7: the hook ends in [this.error] exactly when it reached its first
    prompt and that prompt, and the prompt for the first alternative when
    there is one, were declined, cancelled or failed. It then has asked
    those prompts, stores the error [Command not found: <id>] in the
    shared context, runs the chain of the [error] hook on that context,
    every handler of the chain being called and giving one result
    whatever it does, and exits with status 127. *)
Theorem fail_only_after_declined_prompts (env : Env) (opts : Opts) (st : State) :
  let final := commandNotFoundHook env opts st in
  let st1 := at_first_prompt env opts st in
  let unresolved := mkError ("Command not found: " +:+ id opts) in
  let ctx := HookContext.set "error" (VError unresolved) (context (manager st1)) in
  let ex := executeWithContext "error" [opts_ref]
              (mkHookManager (hooks (manager st1)) ctx) in
  ((∃ text code, final.2 = ExitError text code) ↔ declined_all env opts st)
  ∧ (declined_all env opts st →
     final.2 = ExitError ("Run " +:+ bin_help (config st) opts
                          +:+ " for a list of available commands.") 127
     ∧ trace final.1
       = (trace st1 ++ prompts_asked env opts st
          ++ [Fire "error" [context_ref; opts_ref] (results ex)])%list
     ∧ HookContext.get "error" VUndefined ctx = VError unresolved
     ∧ context (manager final.1) = context_after ex
     ∧ length (results ex) = length (chain_of "error" (manager st1))
     ∧ calls ex = map fn (chain_of "error" (manager st1)))
  ∧ (commandNotFoundHook (plain_env Declined) (mkOpts "confi:set" None) bare_state).2
    = ExitError "Run asyncapi help for a list of available commands." 127.
Proof.
  intros final st1 unresolved ctx ex.
  assert (declined_all env opts st →
          final = (fire "error" [opts_ref]
                     (context_set "error" (VError unresolved)
                        (mkState (manager st1) (config st1)
                                 (trace st1 ++ prompts_asked env opts st)%list)),
                   ExitError ("Run " +:+ bin_help (config st) opts
                              +:+ " for a list of available commands.") 127)) as Hfail.
  { intros Hd. subst final. by rewrite declined_hook_fails, fail_outcome. }
  split; [|split; [|by vm_compute]].
  - split.
    + intros (text & code & Hexit). by eapply confirmed_hook_does_not_fail.
    + intros Hd. rewrite (Hfail Hd). by eexists _, _.
  - intros Hd. rewrite (Hfail Hd). simpl.
    split; [done|]. split; [by rewrite <- app_assoc|].
    split; [unfold HookContext.get, HookContext.read, ctx, HookContext.set; simpl;
            by rewrite lookup_insert_eq|].
    split; [done|]. subst ex. unfold executeWithContext.
    rewrite execute_results, execute_calls, length_zip_with, behaviours_length.
    split; [|done]. unfold chain_of. simpl. lia.
Qed.

(** * Further properties of the hook module and the loader *)

(** ** The shared context *)

Lemma inherits_proto : HookContext.inherits "__proto__" = true.
Proof. reflexivity. Qed.

(** X1: in a store that still has its first prototype, after
    [set(key, value)] with a key other than [__proto__] the key is
    present, and [get] returns the value, or the default when the value
    is [undefined]; the other keys are as they were. Setting [__proto__]
    to a primitive value changes nothing. *)
Theorem context_get_after_set (key : string) (v d : Value) (data : HookContext.t) :
  data !! "__proto__" = None →
  key ≠ "__proto__" →
  HookContext.has key (HookContext.set key v data) = true
  ∧ HookContext.get key d (HookContext.set key v data)
    = match v with VUndefined => d | _ => v end
  ∧ (∀ other, other ≠ key →
       HookContext.has other (HookContext.set key v data) = HookContext.has other data
       ∧ HookContext.get other d (HookContext.set key v data)
         = HookContext.get other d data)
  ∧ (HookContext.is_object v = false → HookContext.set "__proto__" v data = data).
Proof.
  intros _ Hkey.
  unfold HookContext.has, HookContext.get, HookContext.read, HookContext.set.
  destruct (String.eqb_spec key "__proto__") as [?|_]; [done|].
  split; [|split; [|split]].
  - rewrite lookup_insert_eq. apply orb_true_iff. left. by apply bool_decide_eq_true.
  - rewrite lookup_insert_eq. by destruct v.
  - intros other Hne. by rewrite lookup_insert_ne.
  - intros ->. done.
Qed.

Lemma context_get_after_set_witness :
  (∅ : HookContext.t) !! "__proto__" = None
  ∧ "toString" ≠ "__proto__"
  ∧ HookContext.get "toString" VUndefined (HookContext.set "toString" (VStr "x") ∅)
    = VStr "x".
Proof.
  assert ("toString" ≠ "__proto__") as H by congruence.
  split; [apply lookup_empty|]. split; [exact H|].
  apply (context_get_after_set "toString" (VStr "x") VUndefined ∅
           (lookup_empty "__proto__") H).
Defined.

(** X2: in a store that still has its first prototype, after
    [remove(key)] or [clear()] a key is present exactly when it is one
    of the names every object inherits, such as [toString]; for any other
    key [get] returns the default. [remove] leaves the other keys as
    they were. *)
Theorem context_forgets_removed_keys (key : string) (d : Value) (data : HookContext.t) :
  data !! "__proto__" = None →
  HookContext.has key (HookContext.remove key data) = HookContext.inherits key
  ∧ (HookContext.inherits key = false →
     HookContext.get key d (HookContext.remove key data) = d)
  ∧ (∀ other, other ≠ key →
       HookContext.has other (HookContext.remove key data) = HookContext.has other data
       ∧ HookContext.get other d (HookContext.remove key data)
         = HookContext.get other d data)
  ∧ HookContext.has key (HookContext.clear data) = HookContext.inherits key
  ∧ (HookContext.inherits key = false →
     HookContext.get key d (HookContext.clear data) = d)
  ∧ HookContext.has "toString" (HookContext.remove "toString" data) = true.
Proof.
  intros Hproto.
  assert (bool_decide (is_Some (@None Value)) = false) as Hnone
    by (apply bool_decide_eq_false; by intros [? ?]).
  unfold HookContext.has, HookContext.get, HookContext.read, HookContext.remove,
    HookContext.clear.
  rewrite !lookup_empty, Hnone.
  destruct (String.eqb_spec key "__proto__") as [->|Hkey].
  - rewrite Hproto, Hnone, inherits_proto. simpl.
    repeat split; try done. apply orb_true_iff. by right.
  - rewrite lookup_delete_eq, Hnone. simpl.
    split; [done|]. split; [by intros ->|].
    split; [intros other Hne; by rewrite lookup_delete_ne|].
    split; [done|]. split; [by intros ->|].
    apply orb_true_iff. by right.
Qed.

Lemma context_forgets_removed_keys_witness :
  (∅ : HookContext.t) !! "__proto__" = None
  ∧ HookContext.has "command" (HookContext.remove "command" ∅)
    = HookContext.inherits "command".
Proof.
  split; [apply lookup_empty|].
  apply (context_forgets_removed_keys "command" VUndefined ∅ (lookup_empty "__proto__")).
Defined.

(** ** Registration and execution *)

Lemma register_all_context regs (m : HookManager) :
  context (register_all regs m) = context m.
Proof.
  revert m. induction regs as [|[[n f] o] regs IH]; intros m; [done|].
  unfold register_all in *. simpl. by rewrite IH.
Qed.

Lemma execute_empty_chain (name : string) (args : list Value) (m : HookManager) :
  chain_of name m = [] → execute name args m = mkExecution [] [] (context m).
Proof.
  unfold chain_of, execute. destruct (hooks m !! name) as [chain|]; simpl; [|done].
  by intros ->.
Qed.

(** X3: [register] puts the new entry, with the defaults for the options
    left out, into the chain of its name, which grows by one; the chains
    of the other names and the shared context stay as they are. *)
Theorem register_touches_one_chain (name : string) (f : HookFunction) (o : HookOptions)
    (m : HookManager) :
  (chain_of name (register name f o m)
     ≡ₚ (chain_of name m ++ [mkHookEntry f (merge_options o)])%list)
  ∧ length (chain_of name (register name f o m)) = S (length (chain_of name m))
  ∧ (∀ other, other ≠ name → chain_of other (register name f o m) = chain_of other m)
  ∧ context (register name f o m) = context m
  ∧ merge_options no_options = mkStoredOptions (Some 10) (Some 30000) None None.
Proof.
  split; [|split; [|split; [|done]]].
  - rewrite chain_register. destruct (decide (name = name)); [|done]. apply sort_perm.
  - rewrite chain_register. destruct (decide (name = name)); [|done].
    rewrite (sort_perm by_priority), length_app. simpl. lia.
  - intros other Hne. rewrite chain_register. by destruct (decide (name = other)).
Qed.

(** X4: a name under which nothing was registered has no handlers:
    [execute] returns no results, calls nothing and leaves the shared
    context as it is. *)
Theorem unregistered_name_runs_nothing
    (regs : list (string * HookFunction * HookOptions)) (name : string) (args : list Value) :
  name ∉ map (λ r, r.1.1) regs →
  execute name args (register_all regs new_manager)
  = mkExecution [] [] (context new_manager).
Proof.
  intros Hname. rewrite execute_empty_chain.
  - by rewrite register_all_context.
  - rewrite chain_register_all. unfold entries_for.
    replace (filter (λ r : string * HookFunction * HookOptions, r.1.1 = name) regs)
      with (@nil (string * HookFunction * HookOptions)); [done|].
    symmetry. induction regs as [|r regs IH]; [done|].
    rewrite filter_cons. simpl in Hname. apply not_elem_of_cons in Hname as [Hne Hrest].
    destruct (decide (r.1.1 = name)); [congruence|]. by apply IH.
Qed.

Lemma unregistered_name_runs_nothing_witness :
  ("init" ∉ map (λ r : string * HookFunction * HookOptions, r.1.1)
                [("h", labelled "one", no_options)])
  ∧ execute "init" [] (register_all [("h", labelled "one", no_options)] new_manager)
    = mkExecution [] [] (context new_manager).
Proof.
  assert ("init" ∉ map (λ r : string * HookFunction * HookOptions, r.1.1)
                       [("h", labelled "one", no_options)]) as H.
  { simpl. intros Hin. apply list_elem_of_singleton in Hin. discriminate Hin. }
  split; [exact H|].
  exact (unregistered_name_runs_nothing [("h", labelled "one", no_options)] "init" [] H).
Defined.

(** X5: a handler that returns a plain value, or a promise that is
    already settled, is never timed out, whatever timeout it was
    registered with and however long the call took: its result is its
    own value or its own error. *)
Theorem immediate_handlers_never_time_out (name : string) (h : HookEntry)
    (busy wait : Z) (v : Value) :
  wait <= 0 →
  hook_result name h (Settles busy wait (Fulfilled v)) = succeeded v (busy + wait)
  ∧ hook_result name h (Settles busy wait (Rejected v)) = failed (as_error v).
Proof.
  intros Ht. pose proof (deadline_at_least_one h). unfold hook_result.
  destruct (Z.leb_spec wait (deadline h)); [done|lia].
Qed.

Lemma immediate_handlers_never_time_out_witness :
  0 <= 0
  ∧ hook_result "h" (mkHookEntry hanging (merge_options (with_timeout (-5))))
      (Settles 0 0 (Fulfilled (VStr "done")))
    = succeeded (VStr "done") 0.
Proof.
  split; [lia|].
  apply (immediate_handlers_never_time_out "h"
           (mkHookEntry hanging (merge_options (with_timeout (-5)))) 0 0 (VStr "done")).
  lia.
Defined.

(** X6: a handler registered with the priority set to [undefined] sorts
    as priority 0, not as the default 10: it runs after a handler
    registered without options, in whichever order the two are
    registered. *)
Theorem undefined_priority_runs_after_default (name : string) (f g : HookFunction)
    (args : list Value) :
  calls (execute name args
           (register name g undefined_priority (register name f no_options new_manager)))
    = [f; g]
  ∧ calls (execute name args
             (register name f no_options (register name g undefined_priority new_manager)))
    = [f; g].
Proof.
  rewrite !execute_calls, !chain_register.
  destruct (decide (name = name)); [|done].
  change (chain_of name new_manager) with (@nil HookEntry). by split.
Qed.

(** ** More on the suggestion helpers *)

Lemma slice_from_end {A} (n : Z) (l : list A) :
  n < 0 → Js.slice 0 (Some n) l = take (length l - Z.to_nat (- n)) l.
Proof.
  intros Hn. unfold Js.slice, Js.rel_index.
  destruct (Z.ltb_spec n 0) as [_|?]; [|lia].
  change (0 <? 0) with false. cbv iota.
  rewrite (Z.min_l 0) by lia. rewrite Z.sub_0_r. change (Z.to_nat 0) with 0%nat.
  rewrite drop_0. f_equal. lia.
Qed.

Lemma slice_sublist {A} (start : Z) (end_ : option Z) (l : list A) :
  sublist (Js.slice start end_ l) l.
Proof.
  unfold Js.slice. etrans; [apply sublist_take|apply sublist_drop].
Qed.

Lemma filter_bool_sublist {A} (f : A → bool) (l : list A) :
  sublist (List.filter f l) l.
Proof.
  induction l as [|x l IH]; simpl; [done|].
  destruct (f x); [by apply sublist_skip|by apply sublist_cons].
Qed.

Lemma filter_bool_elem {A} (f : A → bool) (l : list A) (x : A) :
  x ∈ List.filter f l ↔ x ∈ l ∧ f x = true.
Proof. rewrite !list_elem_of_In. apply filter_In. Qed.

Lemma slice_map {A B} (f : A → B) (start : Z) (end_ : option Z) (l : list A) :
  Js.slice start end_ (map f l) = map f (Js.slice start end_ l).
Proof.
  unfold Js.slice. rewrite length_map.
  change (drop ?n (map f l)) with (skipn n (map f l)).
  by rewrite skipn_map, firstn_map.
Qed.

Lemma ordered_suggestions_slice (env : Env) (target : string)
    (possibilities : list string) (limit : option Z) :
  getOrderedSuggestions env target possibilities limit
  = Js.slice 0 (Some (default 3 limit))
      (Js.sort (λ a b, by_distance (distance env target a, a) (distance env target b, b))
               possibilities).
Proof.
  unfold getOrderedSuggestions. by rewrite <- ranked_ids, slice_map.
Qed.

(** X7: whatever the limit, [getOrderedSuggestions] returns candidates
    only, each at most as often as the list has it, and a limit of at
    least the number of candidates returns a reordering of all of them. *)
Theorem suggestions_are_candidates (env : Env) (target : string)
    (possibilities : list string) (limit : option Z) :
  (∀ s, s ∈ getOrderedSuggestions env target possibilities limit → s ∈ possibilities)
  ∧ (length (getOrderedSuggestions env target possibilities limit)
     ≤ length possibilities)%nat
  ∧ (NoDup possibilities → NoDup (getOrderedSuggestions env target possibilities limit))
  ∧ (Z.of_nat (length possibilities) <= default 3 limit →
     getOrderedSuggestions env target possibilities limit ≡ₚ possibilities).
Proof.
  rewrite ordered_suggestions_slice.
  set (cmp := λ a b, by_distance (distance env target a, a) (distance env target b, b)).
  pose proof (slice_sublist 0 (Some (default 3 limit)) (Js.sort cmp possibilities)) as Hsub.
  split; [|split; [|split]].
  - intros s Hs. rewrite <- (sort_perm cmp possibilities).
    by eapply elem_of_sublist.
  - rewrite <- (Permutation_length (sort_perm cmp possibilities)).
    by apply sublist_length.
  - intros Hnd. eapply sublist_NoDup; [|exact Hsub]. by rewrite (sort_perm cmp).
  - intros Hall. rewrite slice_first by lia. rewrite take_ge; [apply sort_perm|].
    rewrite (Permutation_length (sort_perm cmp possibilities)). lia.
Qed.

(** X8: with at least one candidate and a limit of at least 1, the first
    suggestion of [getOrderedSuggestions] is the result of [closest]. *)
Theorem closest_heads_the_suggestions (env : Env) (target : string)
    (possibilities : list string) (limit : option Z) :
  possibilities ≠ [] →
  1 <= default 3 limit →
  ∃ others, getOrderedSuggestions env target possibilities limit
            = closest env target possibilities :: others.
Proof.
  intros Hne Hlimit. rewrite ordered_suggestions_slice, closest_head, ranked_ids.
  set (cmp := λ a b, by_distance (distance env target a, a) (distance env target b, b)).
  rewrite slice_first by lia.
  destruct (Js.sort cmp possibilities) as [|c rest] eqn:Hs.
  - pose proof (sort_perm cmp possibilities) as Hp. rewrite Hs in Hp.
    apply Permutation_nil in Hp. done.
  - destruct (Z.to_nat (default 3 limit)) as [|k] eqn:Hk; [lia|].
    simpl. by eexists.
Qed.

Lemma closest_heads_the_suggestions_witness :
  ["config:set"; "config:get"; "help"] ≠ []
  ∧ 1 <= default 3 None
  ∧ ∃ others, getOrderedSuggestions (plain_env Declined) "confi:get"
                ["config:set"; "config:get"; "help"] None
              = closest (plain_env Declined) "confi:get"
                  ["config:set"; "config:get"; "help"] :: others.
Proof.
  assert (["config:set"; "config:get"; "help"] ≠ @nil string) as H by congruence.
  split; [exact H|]. split; [simpl; lia|].
  apply (closest_heads_the_suggestions (plain_env Declined) "confi:get"
           ["config:set"; "config:get"; "help"] None H).
  simpl. lia.
Defined.

(** X9: with a negative limit both helpers return what they would
    return without truncation, less that many entries from its end
    (nothing when it has no more entries than that). *)
Theorem negative_limit_counts_from_the_end (env : Env) (target : string)
    (candidates : list string) (n : Z) :
  n < 0 →
  getOrderedSuggestions env target candidates (Some n)
  = take (length candidates - Z.to_nat (- n))
         (getOrderedSuggestions env target candidates
            (Some (Z.of_nat (length candidates))))
  ∧ findRelatedCommands target candidates (Some n)
    = take (length (findRelatedCommands target candidates
                      (Some (Z.of_nat (length candidates)))) - Z.to_nat (- n))
           (findRelatedCommands target candidates
              (Some (Z.of_nat (length candidates))))
  ∧ (Z.of_nat (length candidates) <= - n →
     getOrderedSuggestions env target candidates (Some n) = []
     ∧ findRelatedCommands target candidates (Some n) = []).
Proof.
  intros Hn.
  assert (length (findRelatedCommands target candidates
                    (Some (Z.of_nat (length candidates)))) ≤ length candidates)%nat
    as Hshort.
  { apply sublist_length. unfold findRelatedCommands.
    etrans; [apply slice_sublist|]. etrans; apply filter_bool_sublist. }
  assert (getOrderedSuggestions env target candidates (Some n)
          = take (length candidates - Z.to_nat (- n))
                 (getOrderedSuggestions env target candidates
                    (Some (Z.of_nat (length candidates))))) as Hfirst.
  { rewrite !ordered_suggestions_slice. simpl.
    set (cmp := λ a b, by_distance (distance env target a, a) (distance env target b, b)).
    rewrite slice_from_end by done. rewrite slice_first by lia.
    pose proof (Permutation_length (sort_perm cmp candidates)) as Hlen.
    rewrite (take_ge (Js.sort cmp candidates) (Z.to_nat _)) by lia.
    by rewrite Hlen. }
  assert (findRelatedCommands target candidates (Some n)
          = take (length (findRelatedCommands target candidates
                            (Some (Z.of_nat (length candidates)))) - Z.to_nat (- n))
                 (findRelatedCommands target candidates
                    (Some (Z.of_nat (length candidates))))) as Hsecond.
  { clear Hshort. unfold findRelatedCommands. simpl.
    set (kept := List.filter _ (List.filter _ candidates)).
    assert (length kept ≤ length candidates)%nat as Hlen.
    { apply sublist_length. subst kept.
      etrans; apply filter_bool_sublist. }
    rewrite slice_from_end by done. rewrite slice_first by lia.
    by rewrite (take_ge kept (Z.to_nat (Z.of_nat (length candidates)))) by lia. }
  split; [done|]. split; [done|].
  intros Hall. rewrite Hfirst, Hsecond.
  replace (length candidates - Z.to_nat (- n))%nat with 0%nat by lia.
  replace (length (findRelatedCommands target candidates
                     (Some (Z.of_nat (length candidates)))) - Z.to_nat (- n))%nat
    with 0%nat by lia.
  done.
Qed.

Lemma negative_limit_counts_from_the_end_witness :
  -1 < 0
  ∧ findRelatedCommands ":x" ["config:set"; "config:get"; "help"] (Some (-1))
    = ["config:set"; "config:get"].
Proof.
  split; [lia|].
  destruct (negative_limit_counts_from_the_end (plain_env Declined) ":x"
              ["config:set"; "config:get"; "help"] (-1)) as (_ & Hrelated & _); [lia|].
  rewrite Hrelated. by vm_compute.
Defined.

(** X10: whatever the limit, [findRelatedCommands] returns candidates in
    the order of the list, never the target itself, and never a
    candidate in which no segment of the target occurs. *)
Theorem related_commands_are_other_candidates (target : string)
    (commandIDs : list string) (limit : option Z) :
  sublist (findRelatedCommands target commandIDs limit) commandIDs
  ∧ (target ∉ findRelatedCommands target commandIDs limit)
  ∧ (∀ cmd, cmd ∈ findRelatedCommands target commandIDs limit → related_to target cmd).
Proof.
  assert (∀ cmd, cmd ∈ findRelatedCommands target commandIDs limit →
                 cmd ≠ target
                 ∧ existsb (λ part, Js.includes cmd part) (Js.split colon target) = true)
    as Hin.
  { intros cmd Hcmd. unfold findRelatedCommands in Hcmd.
    eapply elem_of_sublist in Hcmd; [|apply slice_sublist].
    apply filter_bool_elem in Hcmd as [Hcmd Hne].
    apply filter_bool_elem in Hcmd as [_ Hsome].
    split; [|done]. apply negb_true_iff in Hne. by destruct (String.eqb_spec cmd target). }
  split; [|split].
  - unfold findRelatedCommands.
    etrans; [apply slice_sublist|]. etrans; apply filter_bool_sublist.
  - intros Htarget. by destruct (Hin target Htarget).
  - intros cmd Hcmd. destruct (Hin cmd Hcmd) as [Hne Hsome].
    split; [done|]. by apply some_part_included.
Qed.

(** ** More on the command history *)

(** X11: [saveCommandHistory] puts the new entry last and changes no
    other property of the configuration. Below 100 entries nothing is
    evicted; at 100 entries exactly the oldest one is. *)
Theorem history_append_evicts_the_oldest (time : string) (config : Config) (cmd : string) :
  let log := history_of config in
  let saved := saveCommandHistory time config cmd in
  last (history_of saved) = Some (mkHistoryEntry cmd time)
  ∧ ((length log < 100)%nat → history_of saved = (log ++ [mkHistoryEntry cmd time])%list)
  ∧ (length log = 100%nat →
     history_of saved = (drop 1 log ++ [mkHistoryEntry cmd time])%list)
  ∧ bin saved = bin config
  ∧ commandIDs saved = commandIDs config
  ∧ commands saved = commands config
  ∧ findTopic saved = findTopic config.
Proof.
  intros log saved. subst log saved. rewrite save_history.
  set (log := history_of config). set (e := mkHistoryEntry cmd time).
  split; [|split; [|split]].
  - destruct (Nat.le_gt_cases (length log) 99) as [Hle|Hgt].
    + rewrite length_app. simpl.
      replace (length log + 1 - 100)%nat with 0%nat by lia.
      rewrite drop_0. apply last_snoc.
    + rewrite drop_app_le by (rewrite length_app; simpl; lia). apply last_snoc.
  - intros Hlen. rewrite length_app. simpl.
    replace (length log + 1 - 100)%nat with 0%nat by lia. by rewrite drop_0.
  - intros Hlen. rewrite length_app. simpl.
    replace (length log + 1 - 100)%nat with 1%nat by lia.
    by rewrite drop_app_le by lia.
  - unfold saveCommandHistory.
    by destruct (100 <? Z.of_nat (length _)).
Qed.

(** ** More on the command_not_found hook *)

Lemma run_primary_config (opts : Opts) (suggestion : string) (st : State) :
  config (run_primary opts suggestion st).1 = config st.
Proof.
  unfold run_primary.
  by destruct (Js.startsWith suggestion "help:"), (String.eqb (id opts) "help").
Qed.

Lemma prompt_alternative_config (env : Env) (binHelp : string) (opts : Opts)
    (alts : list string) (st : State) :
  config (prompt_alternative env binHelp opts alts st).1 = config st.
Proof.
  rewrite prompt_alternative_cases. destruct alts as [|alt alts]; [done|].
  cbv zeta. rewrite ask_state.
  by destruct (confirm env (alternative_question env alt)).
Qed.

Lemma log_list_config (title : string) (env : Env) (l : list string) (st : State) :
  config (log_list title env l st) = config st
  ∧ manager (log_list title env l st) = manager st.
Proof.
  unfold log_list. destruct l as [|x l]; [done|].
  generalize (x :: l). intros l'.
  assert (∀ st', config (foldl (λ st s, emit (Log ("  " +:+ toConfiguredId env s)) st) st' l')
                 = config st'
                 ∧ manager (foldl (λ st s, emit (Log ("  " +:+ toConfiguredId env s)) st)
                                  st' l') = manager st') as H.
  { induction l' as [|y l' IH]; intros st'; [done|].
    simpl. by rewrite !(proj1 (IH _)), !(proj2 (IH _)). }
  by destruct (H (emit (Log title) st)) as [-> ->].
Qed.

Lemma announce_config (env : Env) (opts : Opts) (ids : list string)
    (suggestion : string) (st : State) :
  config (announce env opts ids suggestion st)
  = saveCommandHistory (now env) (config st) (id opts).
Proof.
  unfold announce. by rewrite !(proj1 (log_list_config _ _ _ _)).
Qed.

(** X12: when the identifier is [--help], or no command is visible, the
    hook returns after the [command:before] hooks without a warning or a
    prompt, and leaves the configuration, history included, as it is;
    for [--help] it shows the help first. *)
Theorem hook_returns_without_prompt (env : Env) (opts : Opts) (st : State) :
  id opts = "--help" ∨ visible_ids (config st) = [] →
  let before := Fire COMMAND_BEFORE [context_ref; opts_ref]
                  (results (executeWithContext COMMAND_BEFORE [opts_ref]
                              (manager (context_set "config" config_ref
                                 (context_set "argv" (argv_value (argv opts))
                                    (context_set "command" (VStr (id opts)) st)))))) in
  (commandNotFoundHook env opts st).2 = Returned
  ∧ config (commandNotFoundHook env opts st).1 = config st
  ∧ trace (commandNotFoundHook env opts st).1
    = (trace st ++ before
       :: (if String.eqb (id opts) "--help" then [ShowHelp ["--help"]] else []))%list.
Proof.
  intros Hcase before. subst before. unfold commandNotFoundHook.
  destruct (String.eqb_spec (id opts) "--help") as [Heq|Hne].
  - simpl. by rewrite <- app_assoc.
  - destruct Hcase as [?|Hnil]; [done|].
    change (config (start opts st)) with (config st). by rewrite Hnil.
Qed.

Lemma hook_returns_without_prompt_witness :
  (id (mkOpts "--help" None) = "--help" ∨ visible_ids (config bare_state) = [])
  ∧ (commandNotFoundHook (plain_env Confirmed) (mkOpts "--help" None) bare_state).2
    = Returned.
Proof.
  assert (id (mkOpts "--help" None) = "--help" ∨ visible_ids (config bare_state) = [])
    as H by (left; reflexivity).
  split; [exact H|].
  apply (hook_returns_without_prompt (plain_env Confirmed) (mkOpts "--help" None)
           bare_state H).
Defined.

(** X13: when the first prompt is not confirmed and the prompt for the
    first alternative is, the hook runs that alternative with the
    argument vector of the call, unchanged (also when there is none). *)
Theorem confirmed_alternative_is_run (env : Env) (opts : Opts) (st : State)
    (alt : string) (others : list string) :
  let ids := visible_ids (config st) in
  let suggestion := primary_suggestion env opts ids in
  id opts ≠ "--help" →
  ids ≠ [] →
  confirm env (primary_question env opts suggestion) ≠ Confirmed →
  alternatives env opts ids suggestion = alt :: others →
  confirm env (alternative_question env alt) = Confirmed →
  (commandNotFoundHook env opts st).2 = RunCommand alt (argv opts).
Proof.
  intros ids suggestion Hhelp Hids Hno Halts Hyes.
  rewrite hook_from_first_prompt by done. cbv zeta.
  fold ids. fold suggestion. rewrite prompt_alternative_cases, Halts. cbv zeta.
  rewrite Hyes. by destruct (confirm env (primary_question env opts suggestion)).
Qed.

Lemma confirmed_alternative_is_run_witness :
  (commandNotFoundHook
     (mkEnv edit_distance (λ id, id) "2024-01-01T00:00:00.000Z"
            (λ text, if String.eqb text "Did you mean config:set? [y/n]"
                     then Declined else Confirmed))
     (mkOpts "confi:set" (Some ["--flag"])) bare_state).2
  = RunCommand "config:get" (Some ["--flag"]).
Proof.
  apply (confirmed_alternative_is_run
           (mkEnv edit_distance (λ id, id) "2024-01-01T00:00:00.000Z"
                  (λ text, if String.eqb text "Did you mean config:set? [y/n]"
                           then Declined else Confirmed))
           (mkOpts "confi:set" (Some ["--flag"])) bare_state "config:get" ["help"]).
  - simpl. congruence.
  - vm_compute. congruence.
  - vm_compute. congruence.
  - by vm_compute.
  - by vm_compute.
Defined.

(** X14: whenever the hook gets to its first prompt, it has added one
    entry for the identifier to the command history, whatever the
    answers to the prompts are, and changed nothing else of the
    configuration. *)
Theorem every_prompted_command_is_recorded (env : Env) (opts : Opts) (st : State) :
  id opts ≠ "--help" →
  visible_ids (config st) ≠ [] →
  config (commandNotFoundHook env opts st).1
  = saveCommandHistory (now env) (config st) (id opts).
Proof.
  intros Hhelp Hids. rewrite hook_from_first_prompt by done. cbv zeta.
  assert (config (ask env (primary_question env opts
                     (primary_suggestion env opts (visible_ids (config st))))
                    (at_first_prompt env opts st)).2
          = saveCommandHistory (now env) (config st) (id opts)) as Hcfg.
  { rewrite ask_state. simpl. unfold at_first_prompt. by rewrite announce_config. }
  destruct (confirm env (primary_question env opts _));
    by rewrite ?run_primary_config, ?prompt_alternative_config.
Qed.

Lemma every_prompted_command_is_recorded_witness :
  id (mkOpts "confi:set" None) ≠ "--help"
  ∧ visible_ids (config bare_state) ≠ []
  ∧ config (commandNotFoundHook (plain_env Cancelled) (mkOpts "confi:set" None)
              bare_state).1
    = saveCommandHistory (now (plain_env Cancelled)) (config bare_state) "confi:set".
Proof.
  assert (id (mkOpts "confi:set" None) ≠ "--help") as H1 by (simpl; congruence).
  assert (visible_ids (config bare_state) ≠ []) as H2 by (vm_compute; congruence).
  split; [exact H1|]. split; [exact H2|].
  exact (every_prompted_command_is_recorded (plain_env Cancelled)
           (mkOpts "confi:set" None) bare_state H1 H2).
Defined.

(** X15: the visible identifiers are the command identifiers and the
    aliases of the commands, those that are the identifier of a hidden
    command left out; the aliases of a hidden command stay visible. *)
Theorem visible_ids_leave_out_hidden_commands (cfg : Config) (c : string) :
  (c ∈ visible_ids cfg
   ↔ (c ∈ commandIDs cfg ∨ ∃ cmd, cmd ∈ commands cfg ∧ c ∈ c_aliases cmd)
     ∧ ¬ hidden_in cfg c)
  ∧ visible_ids aliased_config = ["config:set"; "s"; "set"].
Proof.
  split; [|by vm_compute].
  unfold visible_ids, hidden_in.
  rewrite filter_bool_elem, negb_true_iff, elem_of_app.
  assert (c ∈ flat_map c_aliases (commands cfg)
          ↔ ∃ cmd, cmd ∈ commands cfg ∧ c ∈ c_aliases cmd) as ->.
  { rewrite list_elem_of_In, in_flat_map.
    split; intros (cmd & H1 & H2); exists cmd; by rewrite ?list_elem_of_In in *. }
  assert (existsb (String.eqb c) (map c_id (List.filter c_hidden (commands cfg))) = true
          ↔ ∃ cmd, cmd ∈ commands cfg ∧ c_hidden cmd = true ∧ c_id cmd = c) as Hhidden.
  { rewrite existsb_exists. split.
    - intros (x & Hx & Heq). apply String.eqb_eq in Heq as <-.
      apply in_map_iff in Hx as (cmd & <- & Hcmd).
      apply filter_In in Hcmd as [Hcmd Hh]. exists cmd. by rewrite list_elem_of_In.
    - intros (cmd & Hcmd & Hh & <-). exists (c_id cmd). split; [|apply String.eqb_refl].
      apply in_map, filter_In. by rewrite <- list_elem_of_In. }
  rewrite <- Hhidden.
  destruct (existsb _ _); split; intros [? ?]; split; try done.
Qed.

Lemma ranking_head (env : Env) (target : string) (possibilities : list string) :
  possibilities ≠ [] →
  ∃ others,
    Js.sort (λ a b, by_distance (distance env target a, a) (distance env target b, b))
            possibilities
    = closest env target possibilities :: others.
Proof.
  intros Hne. rewrite closest_head, ranked_ids.
  set (cmp := λ a b, by_distance (distance env target a, a) (distance env target b, b)).
  destruct (Js.sort cmp possibilities) as [|c rest] eqn:Hs; [|by eexists].
  pose proof (sort_perm cmp possibilities) as Hp. rewrite Hs in Hp.
  by apply Permutation_nil in Hp.
Qed.

Lemma filter_bool_length {A} (f : A → bool) (l : list A) :
  (length (List.filter f l) ≤ length l)%nat.
Proof. apply sublist_length, filter_bool_sublist. Qed.

(** X16: the alternative suggestions never repeat the first suggestion,
    are visible candidates, and are at most three; for an identifier in
    which [help] does not occur they are at most two, the nearest
    candidate being the first suggestion. *)
Theorem alternatives_exclude_the_suggestion (env : Env) (opts : Opts)
    (ids : list string) (suggestion : string) :
  (suggestion ∉ alternatives env opts ids suggestion)
  ∧ (∀ s, s ∈ alternatives env opts ids suggestion → s ∈ ids)
  ∧ (length (alternatives env opts ids suggestion) ≤ 3)%nat
  ∧ (help_like (id opts) = false → ids ≠ [] →
     (length (alternatives env opts ids (primary_suggestion env opts ids)) ≤ 2)%nat).
Proof.
  unfold alternatives. rewrite !ordered_suggestions_slice. simpl.
  set (cmp := λ a b, by_distance (distance env (id opts) a, a)
                                 (distance env (id opts) b, b)).
  rewrite slice_first by lia.
  split; [|split; [|split]].
  - intros Hin. apply filter_bool_elem in Hin as [_ Hne].
    by rewrite String.eqb_refl in Hne.
  - intros s Hs. apply filter_bool_elem in Hs as [Hs _].
    rewrite <- (sort_perm cmp ids). eapply elem_of_sublist; [exact Hs|apply sublist_take].
  - etrans; [apply filter_bool_length|]. rewrite length_take. lia.
  - intros Hhelp Hne. unfold primary_suggestion. rewrite Hhelp.
    destruct (ranking_head env (id opts) ids Hne) as [others Hs].
    fold cmp in Hs. rewrite Hs. simpl. rewrite String.eqb_refl. simpl.
    etrans; [apply filter_bool_length|]. rewrite length_take. lia.
Qed.

Lemma help_join_starts_with_help (r : string) (rest : list string) :
  Js.startsWith (Js.join ":" ("help" :: r :: rest)) "help:" = true.
Proof. apply startsWith_spec. by exists (Js.join ":" (r :: rest)). Qed.

(** X17: for an identifier in which [help] occurs, other than [help] and
    [--help], confirming the first prompt always runs the command [help]. *)
Theorem help_like_identifiers_run_help (env : Env) (opts : Opts) (st : State) :
  help_like (id opts) = true →
  id opts ≠ "help" →
  id opts ≠ "--help" →
  visible_ids (config st) ≠ [] →
  confirm env (primary_question env opts
                 (primary_suggestion env opts (visible_ids (config st)))) = Confirmed →
  ∃ args, (commandNotFoundHook env opts st).2 = RunCommand "help" (Some args).
Proof.
  intros Hlike Hnot Hflag Hids Hyes.
  rewrite hook_from_first_prompt by done. cbv zeta. rewrite Hyes, run_primary_outcome.
  destruct (String.eqb_spec (id opts) "help") as [?|_]; [done|].
  destruct (Js.startsWith _ "help:") eqn:Hstart; [by eexists|].
  unfold primary_suggestion in *. rewrite Hlike in *.
  destruct (List.filter _ (Js.split colon (id opts))) as [|r rest].
  - by eexists.
  - by rewrite help_join_starts_with_help in Hstart.
Qed.

Lemma help_like_identifiers_run_help_witness :
  ∃ args, (commandNotFoundHook (plain_env Confirmed) (mkOpts "helper:config" None)
             bare_state).2 = RunCommand "help" (Some args).
Proof.
  apply (help_like_identifiers_run_help (plain_env Confirmed)
           (mkOpts "helper:config" None) bare_state).
  - reflexivity.
  - simpl. congruence.
  - simpl. congruence.
  - vm_compute. congruence.
  - reflexivity.
Defined.

(** ** More on the plugin loader *)

Lemma load_module_registry (import : Loader.Specifier → Loader.Imported)
    (pluginName : string) (what : Loader.Specifier) (st : Loader.LoadState) :
  Loader.registry (Loader.load_module import pluginName what st)
  = match import what with
    | Loader.Module (Some plugin) =>
        if Loader.register_is_function plugin
        then Loader.registerPlugin plugin (Loader.registry st)
        else Loader.registry st
    | _ => Loader.registry st
    end.
Proof.
  unfold Loader.load_module. destruct (import what) as [|[plugin|]]; try done.
  by destruct (Loader.register_is_function plugin).
Qed.

Lemma load_entry_registry (import : Loader.Specifier → Loader.Imported)
    (filepath : string) (entry : string * Loader.PluginConfig) (st st' : Loader.LoadState) :
  Loader.registry st = Loader.registry st' →
  Loader.registry (Loader.load_entry import filepath entry st)
  = Loader.registry (Loader.load_entry import filepath entry st').
Proof.
  intros Heq. destruct entry as [pluginName config]. unfold Loader.load_entry.
  destruct (Loader.enabled config); [|done].
  destruct (Loader.is_path pluginName).
  - by rewrite !load_module_registry, Heq.
  - unfold Loader.getPlugin. rewrite Heq.
    destruct (Loader.registry st' !! pluginName); [done|].
    by rewrite !load_module_registry, Heq.
Qed.

Lemma load_entries_registry (import : Loader.Specifier → Loader.Imported)
    (filepath : string) (entries : list (string * Loader.PluginConfig))
    (st st' : Loader.LoadState) :
  Loader.registry st = Loader.registry st' →
  Loader.registry (foldl (λ st entry, Loader.load_entry import filepath entry st) st entries)
  = Loader.registry
      (foldl (λ st entry, Loader.load_entry import filepath entry st) st' entries).
Proof.
  revert st st'. induction entries as [|e entries IH]; intros st st' Heq; [done|].
  simpl. apply IH. by apply load_entry_registry.
Qed.

Lemma register_well_keyed (plugin : Loader.Plugin) (registry : gmap string Loader.Plugin) :
  Loader.register_is_function plugin = true →
  well_keyed registry → well_keyed (Loader.registerPlugin plugin registry).
Proof.
  intros Hf Hwk k p. unfold Loader.registerPlugin. rewrite lookup_insert.
  destruct (decide (Loader.name plugin = k)) as [<-|Hne]; [|apply Hwk].
  by intros [= <-].
Qed.

Lemma register_keeps_keys (plugin : Loader.Plugin) (registry : gmap string Loader.Plugin)
    (k : string) :
  is_Some (registry !! k) → is_Some (Loader.registerPlugin plugin registry !! k).
Proof.
  intros Hk. unfold Loader.registerPlugin. rewrite lookup_insert.
  by destruct (decide (Loader.name plugin = k)).
Qed.

Lemma load_entry_invariant (import : Loader.Specifier → Loader.Imported)
    (filepath : string) (entry : string * Loader.PluginConfig) (st : Loader.LoadState) :
  (well_keyed (Loader.registry st) →
   well_keyed (Loader.registry (Loader.load_entry import filepath entry st)))
  ∧ (∀ k, is_Some (Loader.registry st !! k) →
          is_Some (Loader.registry (Loader.load_entry import filepath entry st) !! k))
  ∧ (∃ more, Loader.events (Loader.load_entry import filepath entry st)
             = (Loader.events st ++ more)%list).
Proof.
  assert (∀ pluginName what,
            (well_keyed (Loader.registry st) →
             well_keyed (Loader.registry (Loader.load_module import pluginName what st)))
            ∧ (∀ k, is_Some (Loader.registry st !! k) →
                    is_Some (Loader.registry
                               (Loader.load_module import pluginName what st) !! k))
            ∧ (∃ more, Loader.events (Loader.load_module import pluginName what st)
                       = (Loader.events st ++ more)%list)) as Hmodule.
  { intros pluginName what. rewrite load_module_registry. unfold Loader.load_module.
    destruct (import what) as [|[plugin|]]; simpl.
    - split; [done|]. split; [done|]. eexists. by rewrite <- app_assoc.
    - destruct (Loader.register_is_function plugin) eqn:Hf; simpl.
      + split; [by apply register_well_keyed|].
        split; [intros k; apply register_keeps_keys|].
        eexists. by rewrite <- app_assoc.
      + split; [done|]. split; [done|]. by eexists.
    - split; [done|]. split; [done|]. by eexists. }
  destruct entry as [pluginName config]. unfold Loader.load_entry.
  destruct (Loader.enabled config).
  - destruct (Loader.is_path pluginName); [apply Hmodule|].
    destruct (Loader.getPlugin pluginName (Loader.registry st)); [|apply Hmodule].
    split; [done|]. split; [done|]. exists []. by rewrite app_nil_r.
  - split; [done|]. split; [done|]. exists []. by rewrite app_nil_r.
Qed.

Lemma load_entries_invariant (import : Loader.Specifier → Loader.Imported)
    (filepath : string) (entries : list (string * Loader.PluginConfig))
    (st : Loader.LoadState) :
  let after := foldl (λ st entry, Loader.load_entry import filepath entry st) st entries in
  (well_keyed (Loader.registry st) → well_keyed (Loader.registry after))
  ∧ (∀ k, is_Some (Loader.registry st !! k) → is_Some (Loader.registry after !! k))
  ∧ (∃ more, Loader.events after = (Loader.events st ++ more)%list).
Proof.
  revert st. induction entries as [|e entries IH]; intros st; simpl.
  - split; [done|]. split; [done|]. exists []. by rewrite app_nil_r.
  - destruct (load_entry_invariant import filepath e st) as (E1 & E2 & more & E3).
    destruct (IH (Loader.load_entry import filepath e st)) as (I1 & I2 & more' & I3).
    split; [intros Hwk; by apply I1, E1|].
    split; [intros k Hk; by apply I2, E2|].
    exists (more ++ more')%list. by rewrite I3, E3, <- app_assoc.
Qed.

(** X18: the user configuration phase keeps the registry in order and
    only adds to it: if every plugin is stored under its own name and has
    a [register] function before the phase, so it is after; every name
    registered before is registered after; and the log is only extended. *)
Theorem user_config_phase_keeps_registry (import : Loader.Specifier → Loader.Imported)
    (search : Loader.SearchResult) (st : Loader.LoadState) :
  (well_keyed (Loader.registry st) →
   well_keyed (Loader.registry (Loader.loadUserConfigPlugins import search st)))
  ∧ (∀ k, is_Some (Loader.registry st !! k) →
          is_Some (Loader.registry (Loader.loadUserConfigPlugins import search st) !! k))
  ∧ (∃ more, Loader.events (Loader.loadUserConfigPlugins import search st)
             = (Loader.events st ++ more)%list).
Proof.
  unfold Loader.loadUserConfigPlugins.
  destruct search as [| |filepath [entries|]];
    try (split; [done|]; split; [done|]; exists []; by rewrite app_nil_r).
  - split; [done|]. split; [done|]. by eexists.
  - apply load_entries_invariant.
Qed.

(** X19: without a configuration file, without a [plugins] mapping, or
    when no entry is enabled, the user configuration phase imports
    nothing and changes nothing; when the search fails it only reports
    that, and leaves the registry as it is. *)
Theorem no_enabled_entry_loads_nothing (import : Loader.Specifier → Loader.Imported)
    (search : Loader.SearchResult) (st : Loader.LoadState) :
  match search with
  | Loader.Found _ (Some entries) =>
      Forall (λ entry, Loader.enabled entry.2 = false) entries →
      Loader.loadUserConfigPlugins import search st = st
  | Loader.SearchFails =>
      Loader.registry (Loader.loadUserConfigPlugins import search st) = Loader.registry st
      ∧ Loader.events (Loader.loadUserConfigPlugins import search st)
        = (Loader.events st ++ [Loader.SearchFailed])%list
  | _ => Loader.loadUserConfigPlugins import search st = st
  end.
Proof.
  destruct search as [| |filepath [entries|]]; try done.
  intros Hoff. simpl. induction Hoff as [|[pluginName config] entries Hoff _ IH]; [done|].
  simpl in *. by rewrite Hoff.
Qed.

(** X20: a package entry whose plugin names itself like the entry is
    loaded at most once: loading the entry a second time imports nothing
    and changes nothing. *)
Theorem package_entry_is_loaded_once (import : Loader.Specifier → Loader.Imported)
    (filepath pluginName : string) (config : Loader.PluginConfig)
    (plugin : Loader.Plugin) (st : Loader.LoadState) :
  Loader.is_path pluginName = false →
  import (Loader.Package (Loader.package_name pluginName)) = Loader.Module (Some plugin) →
  Loader.register_is_function plugin = true →
  Loader.name plugin = pluginName →
  Loader.load_entry import filepath (pluginName, config)
    (Loader.load_entry import filepath (pluginName, config) st)
  = Loader.load_entry import filepath (pluginName, config) st.
Proof.
  intros Hpath Himport Hf Hname. unfold Loader.load_entry. rewrite Hpath.
  destruct (Loader.enabled config) eqn:Hon; [|done].
  destruct (Loader.getPlugin pluginName (Loader.registry st)) eqn:Hreg.
  - by rewrite Hreg.
  - unfold Loader.getPlugin. rewrite load_module_registry, Himport, Hf.
    unfold Loader.registerPlugin. by rewrite Hname, lookup_insert_eq.
Qed.

Lemma package_entry_is_loaded_once_witness :
  Loader.is_path "foo" = false
  ∧ Loader.load_entry import_short "/project/.asyncapirc" ("foo", Loader.mkPluginConfig true)
      (Loader.load_entry import_short "/project/.asyncapirc"
         ("foo", Loader.mkPluginConfig true) (Loader.mkLoadState ∅ []))
    = Loader.load_entry import_short "/project/.asyncapirc"
        ("foo", Loader.mkPluginConfig true) (Loader.mkLoadState ∅ []).
Proof.
  split; [reflexivity|].
  exact (package_entry_is_loaded_once import_short "/project/.asyncapirc" "foo"
           (Loader.mkPluginConfig true) short_plugin (Loader.mkLoadState ∅ [])
           eq_refl eq_refl eq_refl eq_refl).
Defined.

(** X21: an enabled entry that starts with [./] or [/] is imported from
    the directory of the configuration file every time, whether or not a
    plugin of that name is registered. An identifier that starts with
    [../] is not taken for a path: it is a package identifier and gets
    the prefix. *)
Theorem path_entries_are_always_imported (import : Loader.Specifier → Loader.Imported)
    (filepath pluginName : string) (config : Loader.PluginConfig) (st : Loader.LoadState) :
  Loader.enabled config = true →
  Loader.is_path pluginName = true →
  Loader.load_entry import filepath (pluginName, config) st
  = Loader.load_module import pluginName (Loader.Resolved filepath pluginName) st
  ∧ (∃ more, Loader.events (Loader.load_entry import filepath (pluginName, config) st)
             = (Loader.events st
                ++ Loader.Import (Loader.Resolved filepath pluginName) :: more)%list)
  ∧ (∀ rest, Loader.is_path ("../" +:+ rest) = false
             ∧ Loader.package_name ("../" +:+ rest)
               = Loader.MODULE_PREFIX +:+ "../" +:+ rest).
Proof.
  intros Hon Hpath. unfold Loader.load_entry. rewrite Hon, Hpath.
  split; [done|]. split; [|done].
  unfold Loader.load_module. simpl.
  destruct (import _) as [|[plugin|]]; simpl.
  - eexists. by rewrite <- app_assoc.
  - destruct (Loader.register_is_function plugin); simpl.
    + eexists. by rewrite <- app_assoc.
    + by exists [].
  - by exists [].
Qed.

Lemma path_entries_are_always_imported_witness :
  Loader.enabled (Loader.mkPluginConfig true) = true
  ∧ Loader.is_path "./plugins/foo" = true
  ∧ Loader.load_entry import_foo "/project/.asyncapirc"
      ("./plugins/foo", Loader.mkPluginConfig true) foo_registered
    = Loader.load_module import_foo "./plugins/foo"
        (Loader.Resolved "/project/.asyncapirc" "./plugins/foo") foo_registered.
Proof.
  split; [reflexivity|]. split; [reflexivity|].
  apply (path_entries_are_always_imported import_foo "/project/.asyncapirc"
           "./plugins/foo" (Loader.mkPluginConfig true) foo_registered eq_refl eq_refl).
Defined.

Lemma failed_entry_registry (import : Loader.Specifier → Loader.Imported)
    (filepath pluginName : string) (config : Loader.PluginConfig) (st : Loader.LoadState) :
  nothing_to_register (import (specifier_of filepath pluginName)) →
  Loader.registry (Loader.load_entry import filepath (pluginName, config) st)
  = Loader.registry st.
Proof.
  unfold specifier_of, Loader.load_entry, nothing_to_register. intros Hbad.
  destruct (Loader.enabled config); [|done].
  destruct (Loader.is_path pluginName).
  - rewrite load_module_registry. destruct (import _) as [|[plugin|]]; try done.
    by rewrite Hbad.
  - destruct (Loader.getPlugin pluginName (Loader.registry st)); [done|].
    rewrite load_module_registry. destruct (import _) as [|[plugin|]]; try done.
    by rewrite Hbad.
Qed.

(** X22: an entry whose import fails, or gives a module without a
    default export or without a [register] function, does not affect the
    others: the registry after the phase is the one the phase gives
    without that entry. *)
Theorem failed_entry_does_not_affect_the_others
    (import : Loader.Specifier → Loader.Imported) (filepath pluginName : string)
    (config : Loader.PluginConfig) (before after : list (string * Loader.PluginConfig))
    (st : Loader.LoadState) :
  nothing_to_register (import (specifier_of filepath pluginName)) →
  Loader.registry
    (Loader.loadUserConfigPlugins import
       (Loader.Found filepath (Some (before ++ (pluginName, config) :: after)%list)) st)
  = Loader.registry
      (Loader.loadUserConfigPlugins import
         (Loader.Found filepath (Some (before ++ after)%list)) st).
Proof.
  intros Hbad. simpl. rewrite !foldl_app. simpl.
  apply load_entries_registry. by apply failed_entry_registry.
Qed.

Lemma failed_entry_does_not_affect_the_others_witness :
  nothing_to_register (import_nothing (specifier_of "/project/.asyncapirc" "broken"))
  ∧ Loader.registry
      (Loader.loadUserConfigPlugins import_nothing
         (Loader.Found "/project/.asyncapirc"
            (Some ([] ++ ("broken", Loader.mkPluginConfig true)
                   :: [("foo", Loader.mkPluginConfig true)])%list))
         foo_registered)
    = Loader.registry
        (Loader.loadUserConfigPlugins import_nothing
           (Loader.Found "/project/.asyncapirc"
              (Some ([] ++ [("foo", Loader.mkPluginConfig true)])%list))
           foo_registered).
Proof.
  assert (nothing_to_register
            (import_nothing (specifier_of "/project/.asyncapirc" "broken"))) as H
    by exact I.
  split; [exact H|].
  exact (failed_entry_does_not_affect_the_others import_nothing "/project/.asyncapirc"
           "broken" (Loader.mkPluginConfig true) []
           [("foo", Loader.mkPluginConfig true)] foo_registered H).
Defined.

(** ** The directory phases *)

Lemma imports_of_say (e : Scan.ScanEvent) (st : Scan.ScanState) :
  imports_of (Scan.events (Scan.say e st))
  = (imports_of (Scan.events st)
     ++ match e with Scan.Loading dir entryName => [(dir, entryName)] | _ => [] end)%list.
Proof.
  unfold imports_of, Scan.say. simpl. rewrite flat_map_app. simpl.
  by rewrite app_nil_r.
Qed.

Lemma scan_entry_imports (w : Scan.World) (dir : string) (entry : Scan.DirEntry)
    (st : Scan.ScanState) :
  imports_of (Scan.events (Scan.scan_entry w dir entry st))
  = (imports_of (Scan.events st)
     ++ if Scan.isDirectory entry then [(dir, Scan.entry_name entry)] else [])%list.
Proof.
  unfold Scan.scan_entry. destruct (Scan.isDirectory entry); [|by rewrite app_nil_r].
  destruct (Scan.import_at w dir (Scan.entry_name entry)) as [|[plugin|]];
    [| destruct (Loader.register_is_function plugin) |];
    unfold Scan.say, imports_of; simpl; rewrite !flat_map_app; simpl;
    by rewrite ?app_nil_r, <- ?app_assoc.
Qed.

Lemma scan_module_imports (w : Scan.World) (dir : string) (entry : Scan.DirEntry)
    (st : Scan.ScanState) :
  imports_of (Scan.events (Scan.scan_module w dir entry st))
  = (imports_of (Scan.events st) ++ [(dir, Scan.entry_name entry)])%list.
Proof.
  unfold Scan.scan_module.
  destruct (Scan.import_at w dir (Scan.entry_name entry)) as [|[plugin|]];
    [| destruct (Loader.register_is_function plugin) |];
    unfold Scan.say, imports_of; simpl; rewrite !flat_map_app; simpl;
    by rewrite ?app_nil_r, <- ?app_assoc.
Qed.

(** X23: a scan imports exactly the directories of its listing, in the
    order of the listing, the scan of [node_modules] only those whose
    name starts with [asyncapi-cli-plugin-]; when the directory cannot be
    read it imports nothing and leaves the registry as it is. *)
Theorem scans_import_the_listed_directories (w : Scan.World) (dir : string)
    (st : Scan.ScanState) :
  imports_of (Scan.events (Scan.loadPluginsFromDirectory w dir st))
  = (imports_of (Scan.events st)
     ++ match Scan.readdir w dir with
        | Scan.ReaddirFails => []
        | Scan.Entries entries =>
            map (λ e, (dir, Scan.entry_name e)) (List.filter Scan.isDirectory entries)
        end)%list
  ∧ imports_of (Scan.events (Scan.loadNodeModulesPlugins w dir st))
    = (imports_of (Scan.events st)
       ++ match Scan.readdir w dir with
          | Scan.ReaddirFails => []
          | Scan.Entries entries =>
              map (λ e, (dir, Scan.entry_name e))
                  (List.filter (λ e, Scan.isDirectory e
                                     && Js.startsWith (Scan.entry_name e)
                                                      "asyncapi-cli-plugin-") entries)
          end)%list
  ∧ (Scan.readdir w dir = Scan.ReaddirFails →
     Scan.registry (Scan.loadPluginsFromDirectory w dir st) = Scan.registry st
     ∧ Scan.registry (Scan.loadNodeModulesPlugins w dir st) = Scan.registry st)
  ∧ imports_of (Scan.events (Scan.loadNodeModulesPlugins some_node_modules "node_modules"
                               (Scan.mkScanState ∅ [])))
    = [("node_modules", "asyncapi-cli-plugin-foo")].
Proof.
  unfold Scan.loadPluginsFromDirectory, Scan.loadNodeModulesPlugins.
  split; [|split; [|split; [|by vm_compute]]].
  - destruct (Scan.readdir w dir) as [|entries].
    + by rewrite imports_of_say.
    + revert st. induction entries as [|e entries IH]; intros st; simpl.
      * by rewrite app_nil_r.
      * rewrite IH, scan_entry_imports, <- app_assoc.
        by destruct (Scan.isDirectory e).
  - destruct (Scan.readdir w dir) as [|entries].
    + by rewrite imports_of_say.
    + cbv zeta. change Loader.MODULE_PREFIX with "asyncapi-cli-plugin-".
      generalize (List.filter (λ e, Scan.isDirectory e
                                    && Js.startsWith (Scan.entry_name e)
                                                     "asyncapi-cli-plugin-") entries).
      intros modules. revert st. induction modules as [|e modules IH]; intros st; simpl.
      * by rewrite app_nil_r.
      * by rewrite IH, scan_module_imports, <- app_assoc.
  - by intros ->.
Qed.

Lemma scan_step_invariant (w : Scan.World) (dir : string) (entry : Scan.DirEntry)
    (st : Scan.ScanState) :
  ((well_keyed (Scan.registry st) →
    well_keyed (Scan.registry (Scan.scan_entry w dir entry st)))
   ∧ (∀ k, is_Some (Scan.registry st !! k) →
           is_Some (Scan.registry (Scan.scan_entry w dir entry st) !! k)))
  ∧ ((well_keyed (Scan.registry st) →
      well_keyed (Scan.registry (Scan.scan_module w dir entry st)))
     ∧ (∀ k, is_Some (Scan.registry st !! k) →
             is_Some (Scan.registry (Scan.scan_module w dir entry st) !! k))).
Proof.
  unfold Scan.scan_entry, Scan.scan_module.
  destruct (Scan.isDirectory entry);
    destruct (Scan.import_at w dir (Scan.entry_name entry)) as [|[plugin|]];
    try destruct (Loader.register_is_function plugin) eqn:Hf; simpl;
    (split; split); try done;
    try (by apply register_well_keyed); try (intros k; by apply register_keeps_keys).
Qed.

Lemma scan_fold_invariant (step : Scan.DirEntry → Scan.ScanState → Scan.ScanState)
    (entries : list Scan.DirEntry) (st : Scan.ScanState) :
  (∀ e st, (well_keyed (Scan.registry st) → well_keyed (Scan.registry (step e st)))
           ∧ (∀ k, is_Some (Scan.registry st !! k) →
                   is_Some (Scan.registry (step e st) !! k))) →
  (well_keyed (Scan.registry st) →
   well_keyed (Scan.registry (foldl (λ st e, step e st) st entries)))
  ∧ (∀ k, is_Some (Scan.registry st !! k) →
          is_Some (Scan.registry (foldl (λ st e, step e st) st entries) !! k)).
Proof.
  intros Hstep. revert st. induction entries as [|e entries IH]; intros st; simpl; [done|].
  destruct (Hstep e st) as [E1 E2]. destruct (IH (step e st)) as [I1 I2].
  split; [intros Hwk; by apply I1, E1|intros k Hk; by apply I2, E2].
Qed.

(** X24: the directory scans keep the registry in order and only add to
    it: every plugin they register has a [register] function and is
    stored under its own name, and no registered name is lost, whatever
    the imports give. *)
Theorem scans_keep_registry (w : Scan.World) (dir : string) (st : Scan.ScanState) :
  (well_keyed (Scan.registry st) →
   well_keyed (Scan.registry (Scan.loadPluginsFromDirectory w dir st))
   ∧ well_keyed (Scan.registry (Scan.loadBuiltInPlugins w dir st))
   ∧ well_keyed (Scan.registry (Scan.loadNodeModulesPlugins w dir st)))
  ∧ (∀ k, is_Some (Scan.registry st !! k) →
          is_Some (Scan.registry (Scan.loadPluginsFromDirectory w dir st) !! k)
          ∧ is_Some (Scan.registry (Scan.loadNodeModulesPlugins w dir st) !! k)).
Proof.
  unfold Scan.loadBuiltInPlugins, Scan.loadPluginsFromDirectory,
    Scan.loadNodeModulesPlugins.
  destruct (Scan.readdir w dir) as [|entries]; [done|]. cbv zeta.
  pose proof (scan_fold_invariant (Scan.scan_entry w dir) entries st
                (λ e st, proj1 (scan_step_invariant w dir e st))) as [A1 A2].
  pose proof (scan_fold_invariant (Scan.scan_module w dir)
                (List.filter (λ e, Scan.isDirectory e
                                   && Js.startsWith (Scan.entry_name e)
                                                    Loader.MODULE_PREFIX) entries) st
                (λ e st, proj2 (scan_step_invariant w dir e st))) as [B1 B2].
  split; [intros Hwk; by auto|intros k Hk; by auto].
Qed.

(** ** Hook files *)

Lemma endsWith_spec (s suffix : string) :
  endsWith s suffix = true ↔ ∃ stem, s = stem +:+ suffix.
Proof.
  induction s as [|a s IH].
  - destruct suffix as [|b suffix]; simpl.
    + split; [intros _; by exists ""|done].
    + split; [done|]. intros [stem H]. by destruct stem.
  - change (endsWith (String a s) suffix)
      with (String.eqb (String a s) suffix || endsWith s suffix).
    rewrite orb_true_iff, String.eqb_eq, IH. split.
    + intros [<-|[stem ->]]; [by exists ""|by exists (String a stem)].
    + intros [[|b stem] H].
      * by left.
      * right. exists stem. rewrite append_cons in H. congruence.
Qed.

(** A name with an extension of three characters in front of it is not
    such an extension itself. *)
Lemma longer_than_extension (stem ext ext' : string) (a : ascii) :
  String.length ext = 3%nat → String.length ext' = 3%nat →
  String a (stem +:+ ext) ≠ ext'.
Proof.
  intros Hext Hext' Heq.
  assert (String.length (String a (stem +:+ ext)) = 3%nat) as Hlen by by rewrite Heq.
  simpl in Hlen.
  assert (∀ s t, String.length (s +:+ t) = (String.length s + String.length t)%nat) as Happ.
  { intros s t. induction s as [|c s IHs]; [done|]. rewrite append_cons. simpl. by rewrite IHs. }
  rewrite Happ in Hlen. lia.
Qed.

Lemma strip_extension_of (stem ext : string) :
  ext = ".js" ∨ ext = ".ts" → strip_extension (stem +:+ ext) = stem.
Proof.
  intros Hext. induction stem as [|a stem IH].
  - by destruct Hext as [-> | ->].
  - rewrite append_cons.
    change (strip_extension (String a (stem +:+ ext)))
      with (if String.eqb (String a (stem +:+ ext)) ".js"
               || String.eqb (String a (stem +:+ ext)) ".ts"
            then EmptyString else String a (strip_extension (stem +:+ ext))).
    assert (String.length ext = 3%nat) as Hlen by by destruct Hext as [-> | ->].
    destruct (String.eqb_spec (String a (stem +:+ ext)) ".js") as [Heq|_].
    { by apply (longer_than_extension stem ext ".js" a) in Heq. }
    destruct (String.eqb_spec (String a (stem +:+ ext)) ".ts") as [Heq|_].
    { by apply (longer_than_extension stem ext ".ts" a) in Heq. }
    simpl. by rewrite IH.
Qed.

(** X25: the hook files are the files of the listing that end in [.js]
    or [.ts]; the hook name of such a file is the file name without that
    extension; and a module with a default function and no [register]
    function puts that function, with the default priority and timeout,
    into the chain of that name, the other chains and the warnings
    staying as they are. *)
Theorem hook_files_register_under_their_stem (listing : list string) (stem : string)
    (f : HookFunction) (m : HookManager) (warnings : list string) :
  (∀ file, file ∈ hook_files listing
           ↔ file ∈ listing ∧ ∃ stem', file = stem' +:+ ".js" ∨ file = stem' +:+ ".ts")
  ∧ strip_extension (stem +:+ ".js") = stem
  ∧ strip_extension (stem +:+ ".ts") = stem
  ∧ (∀ ext, ext = ".js" ∨ ext = ".ts" →
       let after := on_hook_module (stem +:+ ext) (ExportsDefault f) (m, warnings) in
       (chain_of stem after.1
          ≡ₚ (chain_of stem m ++ [mkHookEntry f (merge_options no_options)])%list)
       ∧ (∀ other, other ≠ stem → chain_of other after.1 = chain_of other m)
       ∧ after.2 = warnings).
Proof.
  split; [|split; [|split]].
  - intros file. unfold hook_files.
    rewrite filter_bool_elem, orb_true_iff, !endsWith_spec. split.
    + intros [Hin [[s ->]|[s ->]]]; (split; [done|]); exists s; [by left|by right].
    + intros [Hin [s [->| ->]]]; (split; [done|]); [left|right]; by exists s.
  - apply strip_extension_of. by left.
  - apply strip_extension_of. by right.
  - intros ext Hext after. subst after. simpl. rewrite strip_extension_of by done.
    split; [|split; [|done]].
    + rewrite chain_register. destruct (decide (stem = stem)); [|done]. apply sort_perm.
    + intros other Hne. rewrite chain_register. by destruct (decide (stem = other)).
Qed.

(** ** Adding a handler of low priority *)

Lemma sort_sorted_list {A} (cmp : A → A → Z) (l : list A) :
  StronglySorted (λ a b, cmp a b <= 0) l → Js.sort cmp l = l.
Proof.
  induction 1 as [|x l Hl IH Hx]; simpl; [done|].
  rewrite IH. destruct l as [|y l]; simpl; [done|].
  inversion Hx as [|? ? Hxy _]; subst.
  by destruct (Z.leb_spec (cmp x y) 0); [|lia].
Qed.

Lemma strongly_sorted_snoc {A} (R : A → A → Prop) (l : list A) (x : A) :
  StronglySorted R l → Forall (λ y, R y x) l → StronglySorted R (l ++ [x]).
Proof.
  induction 1 as [|y l Hl IH Hy]; intros Hx; simpl.
  - repeat constructor.
  - inversion Hx as [|? ? Hyx Hrest]; subst. constructor; [by apply IH|].
    apply Forall_app. split; [done|]. by constructor.
Qed.

Lemma execute_chain_app (name : string) (args : list Value) (l1 l2 : list HookEntry)
    (ctx : HookContext.t) :
  let first := execute_chain name args l1 ctx in
  let second := execute_chain name args l2 (context_after first) in
  execute_chain name args (l1 ++ l2) ctx
  = mkExecution (results first ++ results second) (calls first ++ calls second)
                (context_after second).
Proof.
  revert ctx. induction l1 as [|h l1 IH]; intros ctx; simpl.
  - by destruct (execute_chain name args l2 ctx).
  - destruct (fn h args ctx) as [b ctx']. simpl. by rewrite IH.
Qed.

(** X26: a handler registered with a priority no higher than those of
    the handlers already in the chain goes to the end of the chain:
    [execute] then gives the results it gave before, followed by the
    result of the new handler, which runs on the context the others
    leave. *)
Theorem lowest_priority_handler_runs_last
    (regs : list (string * HookFunction * HookOptions)) (name : string)
    (f : HookFunction) (o : HookOptions) (args : list Value) :
  let m := register_all regs new_manager in
  let new := mkHookEntry f (merge_options o) in
  let before := execute name args m in
  let after := execute name args (register name f o m) in
  Forall (λ h, sort_key new <= sort_key h) (chain_of name m) →
  chain_of name (register name f o m) = (chain_of name m ++ [new])%list
  ∧ results after
    = (results before
       ++ [hook_result name new (f args (context_after before)).1])%list
  ∧ calls after = (calls before ++ [f])%list.
Proof.
  intros m new before after Hlow.
  assert (chain_of name (register name f o m) = (chain_of name m ++ [new])%list) as Hchain.
  { rewrite chain_register. destruct (decide (name = name)); [|done].
    apply sort_sorted_list.
    eapply strongly_sorted_weaken;
      [|apply strongly_sorted_snoc with (R := λ a b, sort_key b <= sort_key a)].
    - intros a b Hab. unfold by_priority. simpl in Hab. lia.
    - subst m. rewrite chain_register_all. apply resort_sorted. constructor.
    - done. }
  split; [done|].
  assert (∀ m', execute name args m'
                = execute_chain name args (chain_of name m') (context m')) as Hexec.
  { intros m'. unfold execute, chain_of. by destruct (hooks m' !! name). }
  subst before after. rewrite !Hexec, Hchain, execute_chain_app.
  change (context (register name f o m)) with (context m). simpl.
  by destruct (f args _).
Qed.

Lemma lowest_priority_handler_runs_last_witness :
  Forall (λ h, sort_key (mkHookEntry (labelled "last") (merge_options (with_priority 1)))
               <= sort_key h)
         (chain_of "h" three_hooks)
  ∧ calls (execute "h" [] (register "h" (labelled "last") (with_priority 1) three_hooks))
    = (calls (execute "h" [] three_hooks) ++ [labelled "last"])%list.
Proof.
  assert (Forall (λ h, sort_key (mkHookEntry (labelled "last")
                                   (merge_options (with_priority 1))) <= sort_key h)
                 (chain_of "h" three_hooks)) as H.
  { vm_compute. repeat constructor; discriminate. }
  split; [exact H|].
  apply (lowest_priority_handler_runs_last
           [("h", labelled "five", with_priority 5);
            ("h", labelled "twenty", with_priority 20);
            ("h", labelled "ten", with_priority 10)]
           "h" (labelled "last") (with_priority 1) [] H).
Defined.
